(** * Local alignment of two protein sequences (project4.hh)

    A shallow embedding of [BlosumPenaltyArray] and [local_alignment].

    - [char] is [ascii], [std::string] is [list ascii], [int] is [Z].
      Signed overflow is undefined behaviour in C++; the checked addition
      [int_add] reports it as a fault.
    - [std::map<char, std::map<char, int>>] is a [gmap] of [gmap]s, and
      [operator[]] is [subscript]: it inserts a default value for a key
      that is absent.
    - The matrices [d] and [b] live in a small heap: a row pointer that
      was never assigned and a cell that was never written are [None], and
      an access outside an array is a fault.
    - A fault marks the point at which a run leaves the defined behaviour
      of C++.  The model follows the run no further: it says that the point
      is reached, and nothing of what a compiled program does from there
      (it may stop, or go on with whatever the memory holds).
    - Loops run on fuel; the loop counter that the source leaves
      uninitialised is a parameter [i0] of the model. *)

From Stdlib Require Import ZArith Lia Ascii String.
From stdpp Require Import gmap strings list fin_maps.

Open Scope Z_scope.

(** ** BlosumPenaltyArray *)

Abbreviation BlosumPenaltyArray := (gmap ascii (gmap ascii Z)).

(** [m[k]] of [std::map]: a reference to the value at [k], which is created
    with the default value when [k] is absent.  The result is the value and
    the map after the access. *)
Definition subscript {K : Type} `{Countable K} {V : Type}
    (dflt : V) (m : gmap K V) (k : K) : V * gmap K V :=
  match m !! k with
  | Some v => (v, m)
  | None => (dflt, <[k := dflt]> m)
  end.

(** [return _penaltyMap[c1][c2];] *)
Definition get_penalty (bpa : BlosumPenaltyArray) (c1 c2 : ascii)
    : Z * BlosumPenaltyArray :=
  let '(row, outer) := subscript ∅ bpa c1 in
  let '(v, row') := subscript 0 row c2 in
  (v, <[c1 := row']> outer).

(** [_penaltyMap[c1][c2] = penalty;] *)
Definition set_penalty (bpa : BlosumPenaltyArray) (c1 c2 : ascii) (penalty : Z)
    : BlosumPenaltyArray :=
  let '(row, outer) := subscript ∅ bpa c1 in
  let '(_, row') := subscript 0 row c2 in
  <[c1 := <[c2 := penalty]> row']> outer.

(** The entry recorded for a pair, if any. *)
Definition entry (bpa : BlosumPenaltyArray) (c1 c2 : ascii) : option Z :=
  bpa !! c1 ≫= (.!! c2).

(** A history of calls on one table. *)
Inductive table_op :=
  | OpSet (c1 c2 : ascii) (penalty : Z)
  | OpGet (c1 c2 : ascii).

Definition run_op (bpa : BlosumPenaltyArray) (o : table_op) : BlosumPenaltyArray :=
  match o with
  | OpSet c1 c2 p => set_penalty bpa c1 c2 p
  | OpGet c1 c2 => snd (get_penalty bpa c1 c2)
  end.

Definition run_ops (ops : list table_op) (bpa : BlosumPenaltyArray)
    : BlosumPenaltyArray :=
  foldl run_op bpa ops.

(** The penalty of the most recent [set_penalty c1 c2 _] in a history
    (oldest call first). *)
Fixpoint last_set (c1 c2 : ascii) (ops : list table_op) : option Z :=
  match ops with
  | [] => None
  | o :: ops' =>
      match last_set c1 c2 ops' with
      | Some p => Some p
      | None =>
          match o with
          | OpSet a b p => if decide (a = c1 ∧ b = c2) then Some p else None
          | OpGet _ _ => None
          end
      end
  end.

(** The call [o] is a [set_penalty] or a [get_penalty] on the pair
    [(c1, c2)]. *)
Definition touches (c1 c2 : ascii) (o : table_op) : Prop :=
  match o with
  | OpSet a b _ => a = c1 ∧ b = c2
  | OpGet a b => a = c1 ∧ b = c2
  end.

(** ** The heap of one call *)

Inductive fault :=
  | OutOfBounds    (* an index outside the array *)
  | WildPointer    (* a row pointer that was never assigned *)
  | Uninitialised  (* a cell that was never written *)
  | Overflow.      (* signed overflow of [int] *)

(** An array from [new X[k]]: every slot starts out indeterminate. *)
Abbreviation array X := (list (option X)).

Definition new {X : Type} (k : Z) : array X := replicate (Z.to_nat k) None.

Definition slot {X : Type} (a : list X) (i : Z) : option X :=
  if bool_decide (0 ≤ i) then a !! Z.to_nat i else None.

Definition load {X : Type} (uninit : fault) (a : array X) (i : Z) : fault + X :=
  match slot a i with
  | None => inl OutOfBounds
  | Some None => inl uninit
  | Some (Some x) => inr x
  end.

Definition store {X : Type} (a : array X) (i : Z) (x : X) : fault + array X :=
  match slot a i with
  | None => inl OutOfBounds
  | Some _ => inr (<[Z.to_nat i := Some x]> a)
  end.

(** [int ** d] and [char ** b]: an array of row pointers. *)
Abbreviation matrix X := (array (array X)).

(** [mat[i][j]] as an rvalue. *)
Definition load2 {X : Type} (mat : matrix X) (i j : Z) : fault + X :=
  match load WildPointer mat i with
  | inl f => inl f
  | inr row => load Uninitialised row j
  end.

(** [mat[i][j] = x;] *)
Definition store2 {X : Type} (mat : matrix X) (i j : Z) (x : X)
    : fault + matrix X :=
  match load WildPointer mat i with
  | inl f => inl f
  | inr row =>
      match store row j x with
      | inl f => inl f
      | inr row' => store mat i row'
      end
  end.

Record mem := Mem {
  d : matrix Z;
  b : matrix ascii;
  bpa : BlosumPenaltyArray
}.

Inductive outcome (A : Type) :=
  | Ok (a : A) (st : mem)
  | Fault (f : fault)
  | OutOfFuel.
Arguments Ok {A} a st.
Arguments Fault {A} f.
Arguments OutOfFuel {A}.

Definition is_ok {A : Type} (o : outcome A) : bool :=
  match o with Ok _ _ => true | _ => false end.

Definition value_of {A : Type} (o : outcome A) : option A :=
  match o with Ok a _ => Some a | _ => None end.

(** Statements of the function: state passing with faults. *)
Definition M (A : Type) : Type := mem → outcome A.

#[global] Instance M_ret : MRet M := λ A a st, Ok a st.

#[global] Instance M_bind : MBind M := λ A B f c st,
  match c st with
  | Ok a st' => f a st'
  | Fault e => Fault e
  | OutOfFuel => OutOfFuel
  end.

Definition lift {A : Type} (r : fault + A) : M A := λ st,
  match r with inl f => Fault f | inr a => Ok a st end.

Definition read_d (i j : Z) : M Z := λ st, lift (load2 (d st) i j) st.
Definition read_b (i j : Z) : M ascii := λ st, lift (load2 (b st) i j) st.

Definition write_d (i j : Z) (v : Z) : M unit := λ st,
  match store2 (d st) i j v with
  | inl f => Fault f
  | inr d' => Ok () (Mem d' (b st) (bpa st))
  end.

Definition write_b (i j : Z) (c : ascii) : M unit := λ st,
  match store2 (b st) i j c with
  | inl f => Fault f
  | inr b' => Ok () (Mem (d st) b' (bpa st))
  end.

(** [d = new int*[k];] and [b = new char*[k];] *)
Definition new_d (k : Z) : M unit := λ st, Ok () (Mem (new k) (b st) (bpa st)).
Definition new_b (k : Z) : M unit := λ st, Ok () (Mem (d st) (new k) (bpa st)).

(** [d[i] = new int[k];] and [b[i] = new char[k];] *)
Definition new_row_d (i k : Z) : M unit := λ st,
  match store (d st) i (new k) with
  | inl f => Fault f
  | inr d' => Ok () (Mem d' (b st) (bpa st))
  end.

Definition new_row_b (i k : Z) : M unit := λ st,
  match store (b st) i (new k) with
  | inl f => Fault f
  | inr b' => Ok () (Mem (d st) b' (bpa st))
  end.

(** [bpa.get_penalty(c1, c2)] on the table passed by reference. *)
Definition bpa_get_penalty (c1 c2 : ascii) : M Z := λ st,
  let '(v, t) := get_penalty (bpa st) c1 c2 in Ok v (Mem (d st) (b st) t).

(** [s[k]] of a [const std::string]: defined for [k <= s.size()], and the
    character at [s.size()] is the terminating NUL. *)
Definition NUL : ascii := "000"%char.

Definition str_at (s : list ascii) (k : Z) : M ascii := λ st,
  match slot s k with
  | Some c => Ok c st
  | None =>
      if bool_decide (k = Z.of_nat (length s)) then Ok NUL st
      else Fault OutOfBounds
  end.

Definition INT_MIN : Z := - 2 ^ 31.
Definition INT_MAX : Z := 2 ^ 31 - 1.

(** [x + y] on [int]. *)
Definition int_add (x y : Z) : M Z := λ st,
  if bool_decide (INT_MIN ≤ x + y ≤ INT_MAX) then Ok (x + y) st
  else Fault Overflow.

(** [while (cond) body], at most [fuel] iterations. *)
Fixpoint while_ {S : Type} (fuel : nat) (cond : S → bool) (body : S → M S)
    (s : S) : M S :=
  match fuel with
  | O => λ _, OutOfFuel
  | Datatypes.S fuel' =>
      if cond s then body s ≫= while_ fuel' cond body else mret s
  end.

(** ** local_alignment *)

(** Lines 213-217.  The counter of this loop is declared without an
    initial value; [i0] is whatever it holds.
<<
    for( int i; i < n+2; i++) { d[i] = new int[m+1]; b[i] = new char[m+1]; }
>> *)
Definition alloc_rows (fuel : nat) (i0 n m : Z) : M unit :=
  while_ fuel (λ i, bool_decide (i < n + 2))
    (λ i, new_row_d i (m + 1);; new_row_b i (m + 1);; mret (i + 1)) i0;;
  mret ().

(** Lines 220-224, the inner loop of the initialisation; its increment
    is [i++].  The result is the value of [i] on exit.
<<
    for (int j = 0; j < m+1; i++) { d[i][j] = 0; b[i][j] = '?'; }
>> *)
Definition init_row (fuel : nat) (m i : Z) : M Z :=
  '(i', _) ← while_ fuel (λ '(_, j), bool_decide (j < m + 1))
    (λ '(i, j), write_d i j 0;; write_b i j "?"%char;; mret (i + 1, j))
    (i, 0);
  mret i'.

(** Lines 218-225. *)
Definition init_matrices (fuel : nat) (n m : Z) : M unit :=
  while_ fuel (λ i, bool_decide (i < n + 1))
    (λ i, i' ← init_row fuel m i; mret (i' + 1)) 0;;
  mret ().

(** Lines 233-258: the direction and the score stored for one cell. *)
Definition pick (up left diag : Z) : ascii * Z :=
  if bool_decide (left > up) then
    if bool_decide (left > diag) then ("l"%char, left) else ("d"%char, diag)
  else
    if bool_decide (up > diag) then ("u"%char, up) else ("d"%char, diag).

(** Lines 230-262, the body of the inner loop of the fill. *)
Definition fill_cell (string1 string2 : list ascii) (i j : Z) : M unit :=
  x ← read_d (i - 1) j;
  c ← str_at string1 (i - 1);
  p ← bpa_get_penalty c "*"%char;
  up ← int_add x p;
  x ← read_d i (j - 1);
  c ← str_at string2 (j - 1);
  p ← bpa_get_penalty "*"%char c;
  left ← int_add x p;
  x ← read_d (i - 1) (j - 1);
  c1 ← str_at string1 (i - 1);
  c2 ← str_at string2 (j - 1);
  p ← bpa_get_penalty c1 c2;
  diag ← int_add x p;
  let '(dir, best) := pick up left diag in
  write_b i j dir;;
  write_d i j best;;
  v ← read_d i j;
  if bool_decide (v < 0) then write_d i j 0 else mret ().

(** Lines 228-265, the inner loop of the fill; its increment is [i++]. *)
Definition fill_row (fuel : nat) (string1 string2 : list ascii) (m i : Z)
    : M Z :=
  '(i', _) ← while_ fuel (λ '(_, j), bool_decide (j < m + 1))
    (λ '(i, j), fill_cell string1 string2 i j;; mret (i + 1, j))
    (i, 1);
  mret i'.

(** Lines 226-266. *)
Definition fill_matrices (fuel : nat) (string1 string2 : list ascii)
    (n m : Z) : M unit :=
  while_ fuel (λ i, bool_decide (i < n + 1))
    (λ i, i' ← fill_row fuel string1 string2 m i; mret (i' + 1)) 1;;
  mret ().

(** Lines 267-276: the search for the best score, in row [best_i] of [d].
    The result is [best_score] and [best_j]. *)
Definition find_best (fuel : nat) (best_i m : Z) : M (Z * Z) :=
  '(_, best_score, best_j) ← while_ fuel (λ '(j, _, _), bool_decide (j < m + 1))
    (λ '(j, best_score, best_j),
       v ← read_d best_i j;
       if bool_decide (v > best_score) then mret (j + 1, v, j)
       else mret (j + 1, best_score, best_j))
    (1, 0, 0);
  mret (best_score, best_j).

(** The variables of the loop of lines 280-305. *)
Record walk := Walk {
  wi : Z;
  wj : Z;
  matchString1 : list ascii;
  matchString2 : list ascii;
  done : bool
}.

(** Lines 282-304, one iteration of the trace back. *)
Definition traceback_step (string1 string2 : list ascii) (w : walk) : M walk :=
  let '(Walk i j ms1 ms2 _) := w in
  c ← read_b i j;
  if bool_decide (c = "u"%char) then
    x ← str_at string1 (i - 1);
    mret (Walk (i - 1) j (ms1 ++ [x]) (ms2 ++ ["*"%char]) false)
  else if bool_decide (c = "l"%char) then
    y ← str_at string2 (j - 1);
    mret (Walk i (j - 1) (ms1 ++ ["*"%char]) (ms2 ++ [y]) false)
  else if bool_decide (c = "d"%char) then
    x ← str_at string1 (i - 1);
    y ← str_at string2 (j - 1);
    mret (Walk (i - 1) (j - 1) (ms1 ++ [x]) (ms2 ++ [y]) false)
  else if bool_decide (c = "?"%char) then
    mret (Walk i j ms1 ms2 true)
  else
    mret (Walk i j ms1 ms2 false).

(** Lines 277-305. *)
Definition traceback (fuel : nat) (string1 string2 : list ascii)
    (best_i best_j : Z) : M (list ascii * list ascii) :=
  w ← while_ fuel (λ w, negb (done w)) (traceback_step string1 string2)
        (Walk best_i best_j [] [] false);
  mret (matchString1 w, matchString2 w).

(** Lines 306-310 (and 311-315): the string read from its last character
    down to its first. *)
Definition reversed (fuel : nat) (s : list ascii) : M (list ascii) :=
  '(_, temp) ← while_ fuel (λ '(x, _), bool_decide (x >= 0))
    (λ '(x, temp), c ← str_at s x; mret (x - 1, temp ++ [c]))
    (Z.of_nat (length s) - 1, []);
  mret temp.

(** Lines 267-318: the search, the walk and the two reversals, with the
    returned score and the final contents of [matchString1] and
    [matchString2]. *)
Definition read_off (fuel : nat) (string1 string2 : list ascii)
    : M (Z * list ascii * list ascii) :=
  let best_i := Z.of_nat (length string1) in
  let m := Z.of_nat (length string2) in
  '(best_score, best_j) ← find_best fuel best_i m;
  '(ms1, ms2) ← traceback fuel string1 string2 best_i best_j;
  temp1 ← reversed fuel ms1;
  temp2 ← reversed fuel ms2;
  mret (best_score, temp1, temp2).

(** The whole function. *)
Definition local_alignment (fuel : nat) (i0 : Z) (string1 string2 : list ascii)
    : M (Z * list ascii * list ascii) :=
  let n := Z.of_nat (length string1) in
  let m := Z.of_nat (length string2) in
  new_d (n + 1);;
  new_b (n + 1);;
  alloc_rows fuel i0 n m;;
  init_matrices fuel n m;;
  fill_matrices fuel string1 string2 n m;;
  read_off fuel string1 string2.

(** ** Vocabulary of the statements *)

Definition penalty (t : BlosumPenaltyArray) (c1 c2 : ascii) : Z :=
  fst (get_penalty t c1 c2).

Definition in_int (x : Z) : Prop := INT_MIN ≤ x ≤ INT_MAX.

(** The cell [(i, j)] exists: row [i] is allocated and has a slot [j]. *)
Definition writable {X : Type} (mat : matrix X) (i j : Z) : Prop :=
  ∃ row, slot mat i = Some (Some row) ∧ is_Some (slot row j).

(** The position that the search returns with the score. *)
Definition best_at (vals : list Z) (best_score best_j : Z) : Prop :=
  (best_score = 0 ∧ best_j = 0) ∨
  (0 < best_score ∧ 1 ≤ best_j ∧ vals !! Z.to_nat best_j = Some best_score).

(** The largest of [0] and the cells [1 ..] of a row. *)
Definition row_best (vals : list Z) : Z := foldl Z.max 0 (drop 1 vals).

(** The score that one step of the fill leaves in a cell. *)
Definition cell_score (up left diag : Z) : Z := Z.max (pick up left diag).2 0.

Definition symmetric (t : BlosumPenaltyArray) : Prop :=
  ∀ c1 c2, penalty t c1 c2 = penalty t c2 c1.

(** Match [+1], mismatch and gap [-1], recorded row by row with
    [set_penalty] for every pair of symbols of the alphabet. *)
Definition unit_score (c1 c2 : ascii) : Z :=
  if bool_decide (c1 = c2) then 1 else -1.

Definition set_row (cols : list ascii) (t : BlosumPenaltyArray) (c1 : ascii)
    : BlosumPenaltyArray :=
  foldl (λ t c2, set_penalty t c1 c2 (unit_score c1 c2)) t cols.

Definition unit_scores (alphabet : list ascii) : BlosumPenaltyArray :=
  foldl (set_row alphabet) ∅ alphabet.

(** A trace matrix on which the walk is defined: every cell of rows
    [0 .. n] and columns [0 .. m] holds a direction or ['?'], and row [0]
    and column [0] hold ['?']. *)
Definition trace_matrix (bm : matrix ascii) (n m : Z) : Prop :=
  ∀ i j, 0 ≤ i ≤ n → 0 ≤ j ≤ m →
    ∃ c, load2 bm i j = inr c ∧ c ∈ ["u"; "l"; "d"; "?"]%char ∧
         (i = 0 ∨ j = 0 → c = "?"%char).

Definition str (s : string) : list ascii := list_ascii_of_string s.

(** Matrices of [n + 1] rows and [m + 1] columns with every cell set to
    [x]: what the assignments of lines 222-223 put in a cell. *)
Definition grid {X : Type} (n m : Z) (x : X) : matrix X :=
  replicate (Z.to_nat (n + 1)) (Some (replicate (Z.to_nat (m + 1)) (Some x))).

Definition blank (n m : Z) (t : BlosumPenaltyArray) : mem :=
  Mem (grid n m 0) (grid n m "?"%char) t.

Definition AB_scores : BlosumPenaltyArray := unit_scores (str "AB*").

(** ["AB"] against ["A"] after the fill step of cell (1,1). *)
Definition half_AB_A : mem :=
  Mem [Some [Some 0; Some 0]; Some [Some 0; Some 1]; Some [Some 0; Some 0]]
      [Some [Some "?"; Some "?"]; Some [Some "?"; Some "d"];
       Some [Some "?"; Some "?"]]%char
      AB_scores.

(** ["AB"] against ["A"] after the fill steps of cells (1,1) and (2,1). *)
Definition filled_AB_A : mem :=
  Mem [Some [Some 0; Some 0]; Some [Some 0; Some 1]; Some [Some 0; Some 0]]
      [Some [Some "?"; Some "?"]; Some [Some "?"; Some "d"];
       Some [Some "?"; Some "u"]]%char
      AB_scores.

(** ["A"] against ["AB"] after the fill steps of cells (1,1) and (1,2). *)
Definition filled_A_AB : mem :=
  Mem [Some [Some 0; Some 0; Some 0]; Some [Some 0; Some 1; Some 0]]
      [Some [Some "?"; Some "?"; Some "?"];
       Some [Some "?"; Some "d"; Some "l"]]%char
      AB_scores.

(** Column [j] of a matrix, rows [0 .. n]. *)
Definition column (D : Z → Z → Z) (n j : Z) : list Z :=
  (λ i, D i j) <$> seqZ 0 (n + 1).

(** ** Protein files *)

Record Protein := {
  description : list ascii;
  sequence : list ascii
}.

(** [std::vector<std::shared_ptr<Protein>>]; a null pointer is [None]. *)
Abbreviation ProteinVector := (list (option Protein)).

Definition newline : ascii := "010"%char.

(** The lines that the loop
<<
    while (!ifs.eof()) { std::getline(ifs, lineBuffer); if (ifs.eof()) break; ... }
>>
    hands to its body.  [getline] stops behind the next newline; when it
    meets the end of the file instead it sets [eof], and the loop leaves
    with what was read of that line unused. *)
Fixpoint getlines (lineBuffer stream : list ascii) : list (list ascii) :=
  match stream with
  | [] => []
  | c :: stream' =>
      if bool_decide (c = newline) then lineBuffer :: getlines [] stream'
      else getlines (lineBuffer ++ [c]) stream'
  end.

(** What goes wrong in the file functions.  [std::out_of_range] is an
    exception, which no caller catches; the other two are undefined
    behaviour, after which the model follows the run no further. *)
Inductive io_fault :=
  | NullPointer   (* [->] on a null [shared_ptr] *)
  | OutOfRange    (* [std::out_of_range] thrown by [substr] *)
  | BadIndex.     (* [operator[]] of a vector past its end *)

(** The variables of the loop of [load_proteins]. *)
Record loading := Loading {
  proteins : ProteinVector;
  newProtein : option Protein;
  have_description : bool
}.

(** Lines 109-121, the body of the loop for one line. *)
Definition load_line (st : loading) (lineBuffer : list ascii)
    : io_fault + loading :=
  match lineBuffer with
  | [] => inr st
  | c :: rest =>
      if bool_decide (c = ">"%char) then
        inr (Loading (proteins st) (Some (Build_Protein rest [])) true)
      else if have_description st then
        match newProtein st with
        | None => inl NullPointer
        | Some p =>
            let p' := Build_Protein (description p) lineBuffer in
            inr (Loading (proteins st ++ [Some p']) (Some p') false)
        end
      else inr st
  end.

Fixpoint load_lines (st : loading) (lines : list (list ascii))
    : io_fault + loading :=
  match lines with
  | [] => inr st
  | l :: lines' =>
      match load_line st l with
      | inl f => inl f
      | inr st' => load_lines st' lines'
      end
  end.

Definition failed_to_open (path : list ascii) : list ascii :=
  str "Failed to open [" ++ path ++ str "]" ++ [newline].

(** [load_proteins(proteins, path)]: [file] is the content of the file at
    [path], [None] when it cannot be opened.  The result is the returned
    flag, the vector and the text written to [std::cout]. *)
Definition load_proteins (file : option (list ascii)) (path : list ascii)
    (old : ProteinVector) : io_fault + (bool * ProteinVector * list ascii) :=
  match file with
  | None => inr (false, [], failed_to_open path)
  | Some content =>
      match load_lines (Loading [] None false) (getlines [] content) with
      | inl f => inl f
      | inr st => inr (true, proteins st, [])
      end
  end.

(** [s.substr(pos, len)]. *)
Definition substr (s : list ascii) (pos len : nat) : io_fault + list ascii :=
  if bool_decide (pos ≤ length s)%nat then inr (take len (drop pos s))
  else inl OutOfRange.

(** How a call of [save_proteins] ends. *)
Inductive ending :=
  | Returned (r : bool)
  | Faulted (f : io_fault).

(** Lines 143-146: the text written to the file for the proteins from
    index [i] on, after [written], and how the loop ends. *)
Fixpoint save_loop (written : list ascii) (ps : ProteinVector)
    : ending * list ascii :=
  match ps with
  | [] => (Returned true, written)
  | None :: _ => (Faulted NullPointer, written)
  | Some p :: ps' =>
      let written := written ++ description p ++ [newline] in
      match substr (sequence p) 10 10 with
      | inl f => (Faulted f, written)
      | inr piece => save_loop (written ++ piece ++ [newline]) ps'
      end
  end.

(** [save_proteins(proteins, path)]: [can_open] tells whether the file at
    [path] can be opened for writing.  The result is how the call ends,
    the content of the file ([None]: not opened) and the text written to
    [std::cout]. *)
Definition save_proteins (can_open : bool) (path : list ascii)
    (ps : ProteinVector) : ending * option (list ascii) * list ascii :=
  let cout := str "Saving proteins from [" ++ path ++ str "]" ++ [newline] in
  if can_open then
    let '(e, written) := save_loop [] ps in (e, Some written, cout)
  else (Returned false, None, cout ++ failed_to_open path).

(** A file of records: a line [>description] and a line [sequence] for
    each protein. *)
Definition fasta_record (p : Protein) : list ascii :=
  ">"%char :: description p ++ [newline] ++ sequence p ++ [newline].

Definition fasta (ps : list Protein) : list ascii :=
  concat (fasta_record <$> ps).

(** A protein that a file of records can hold: no newline in its fields,
    and a sequence that is not empty and does not begin with ['>']. *)
Definition storable (p : Protein) : Prop :=
  (newline ∉ description p) ∧ (newline ∉ sequence p) ∧
  sequence p ≠ [] ∧ head (sequence p) ≠ Some ">"%char.

(** The pointer [newProtein] is not null while a description waits for
    its sequence. *)
Definition pending_ok (st : loading) : Prop :=
  have_description st = true → is_Some (newProtein st).



(** What [save_proteins] writes for one protein: the description, and the
    ten characters of the sequence from index 10 on. *)
Definition saved_record (p : Protein) : list ascii :=
  description p ++ [newline] ++ take 10 (drop 10 (sequence p)) ++ [newline].

(** A protein of a loaded file whose description does not begin with
    ['>'] and whose sequence does not hold ['>'] at index 10. *)
Definition plain (p : Protein) : Prop :=
  (newline ∉ description p) ∧ (newline ∉ sequence p) ∧
  head (description p) ≠ Some ">"%char ∧
  sequence p !! 10%nat ≠ Some ">"%char.

(** ** BLOSUM files *)

(** [std::isspace] in the "C" locale. *)
Definition isspace (c : ascii) : bool :=
  bool_decide (c ∈ [" "; "009"; "010"; "011"; "012"; "013"]%char).

Definition isdigit (c : ascii) : bool :=
  bool_decide (48 ≤ nat_of_ascii c ≤ 57)%nat.

Definition digit_value (c : ascii) : Z := Z.of_nat (nat_of_ascii c) - 48.

Fixpoint skipws (s : list ascii) : list ascii :=
  match s with
  | c :: s' => if isspace c then skipws s' else s
  | [] => []
  end.

(** The characters up to the next white space, and the rest. *)
Fixpoint word (s : list ascii) : list ascii * list ascii :=
  match s with
  | c :: s' =>
      if isspace c then ([], s)
      else let '(w, rest) := word s' in (c :: w, rest)
  | [] => ([], [])
  end.

(** [ss >> buf] for a [std::string]: white space is skipped and the
    characters up to the next white space are read; the extraction fails
    at the end of the text. *)
Definition extract_word (ss : list ascii) : option (list ascii * list ascii) :=
  match skipws ss with
  | [] => None
  | s => Some (word s)
  end.

(** The value of the digits that [s] begins with, after [acc], and the
    rest. *)
Fixpoint digits (acc : Z) (s : list ascii) : Z * list ascii :=
  match s with
  | c :: s' =>
      if isdigit c then digits (10 * acc + digit_value c) s' else (acc, s)
  | [] => (acc, [])
  end.

(** [ss >> penalty] for an [int]: white space is skipped, then a sign may
    come and digits have to; the extraction fails without a digit, and for
    a number that does not fit in [int]. *)
Definition extract_int (ss : list ascii) : option (Z * list ascii) :=
  let s := skipws ss in
  let '(negative, s) :=
    match s with
    | c :: s' =>
        if bool_decide (c = "-"%char) then (true, s')
        else if bool_decide (c = "+"%char) then (false, s')
        else (false, s)
    | [] => (false, [])
    end in
  match s with
  | c :: _ =>
      if isdigit c then
        let '(v, rest) := digits 0 s in
        let v := if negative then - v else v in
        if bool_decide (INT_MIN ≤ v ≤ INT_MAX) then Some (v, rest) else None
      else None
  | [] => None
  end.

(** Lines 180-182: [while (ss >> buf) aas.push_back(buf[0]);].  Every
    extraction that succeeds takes a character from [ss], so the length of
    the text bounds the number of iterations. *)
Fixpoint header_loop (fuel : nat) (ss aas : list ascii) : list ascii :=
  match fuel with
  | O => aas
  | S fuel' =>
      match extract_word ss with
      | None => aas
      | Some (buf, ss') => header_loop fuel' ss' (aas ++ [default NUL (head buf)])
      end
  end.

(** Lines 190-193.  The index [tokenCount] is not checked against the
    size of [aas]; the model stops at the first read past its end.
<<
    while (ss >> penalty) {
      bpa.set_penalty(thisRowChar, aas[tokenCount], penalty); tokenCount++; }
>> *)
Fixpoint row_loop (fuel : nat) (thisRowChar : ascii) (aas ss : list ascii)
    (tokenCount : nat) (t : BlosumPenaltyArray)
    : io_fault + BlosumPenaltyArray :=
  match fuel with
  | O => inr t
  | S fuel' =>
      match extract_int ss with
      | None => inr t
      | Some (penalty, ss') =>
          match aas !! tokenCount with
          | None => inl BadIndex
          | Some c =>
              row_loop fuel' thisRowChar aas ss' (S tokenCount)
                (set_penalty t thisRowChar c penalty)
          end
      end
  end.

(** Lines 173-193, the body of the loop for one line, on the vector [aas]
    and the table. *)
Definition blosum_line (st : list ascii * BlosumPenaltyArray)
    (lineBuffer : list ascii) : io_fault + (list ascii * BlosumPenaltyArray) :=
  let '(aas, t) := st in
  match lineBuffer with
  | [] => inr st
  | c :: rest =>
      if bool_decide (c = "$"%char) then
        inr (header_loop (length rest) rest aas, t)
      else
        match row_loop (length rest) c aas rest 0 t with
        | inl f => inl f
        | inr t' => inr (aas, t')
        end
  end.

Fixpoint blosum_lines (st : list ascii * BlosumPenaltyArray)
    (lines : list (list ascii)) : io_fault + (list ascii * BlosumPenaltyArray) :=
  match lines with
  | [] => inr st
  | l :: lines' =>
      match blosum_line st l with
      | inl f => inl f
      | inr st' => blosum_lines st' lines'
      end
  end.

(** [load_blosum_file(bpa, path)]: [file] is the content of the file at
    [path], [None] when it cannot be opened.  The result is the returned
    flag, the table and the text written to [std::cout]. *)
Definition load_blosum_file (file : option (list ascii)) (path : list ascii)
    (t : BlosumPenaltyArray)
    : io_fault + (bool * BlosumPenaltyArray * list ascii) :=
  match file with
  | None => inr (false, t, failed_to_open path)
  | Some content =>
      match blosum_lines ([], t) (getlines [] content) with
      | inl f => inl f
      | inr (_, t') => inr (true, t', [])
      end
  end.

(** The decimal digits of [n], for [0 <= n < 2 ^ fuel]. *)
Fixpoint print_digits (fuel : nat) (n : Z) : list ascii :=
  match fuel with
  | O => []
  | S fuel' =>
      (if bool_decide (n < 10) then [] else print_digits fuel' (n / 10)) ++
      [ascii_of_nat (Z.to_nat (48 + n mod 10))]
  end.

Definition print_int (v : Z) : list ascii :=
  if bool_decide (v < 0) then
    "-"%char :: print_digits (S (Z.to_nat (Z.log2 (- v)))) (- v)
  else print_digits (S (Z.to_nat (Z.log2 v))) v.

(** The header line of a matrix file: ['$'] and the symbols of the
    columns. *)
Definition blosum_header (cs : list ascii) : list ascii :=
  "$"%char :: concat ((λ c, [" "%char; c]) <$> cs) ++ [newline].

(** A row of a matrix file: the symbol of the row and its penalties. *)
Definition blosum_row (row : ascii * list Z) : list ascii :=
  row.1 :: concat ((λ v, " "%char :: print_int v) <$> row.2) ++ [newline].

Definition blosum_file (cs : list ascii) (rows : list (ascii * list Z))
    : list ascii :=
  blosum_header cs ++ concat (blosum_row <$> rows).

(** The calls of [set_penalty] for a row. *)
Definition set_cells (cs : list ascii) (t : BlosumPenaltyArray)
    (row : ascii * list Z) : BlosumPenaltyArray :=
  foldl (λ t cv, set_penalty t row.1 cv.1 cv.2) t (zip cs row.2).

(** A row that the format can hold: its symbol is not ['$'] nor a newline,
    and its penalties fit in [int]. *)
Definition row_ok (row : ascii * list Z) : Prop :=
  row.1 ≠ "$"%char ∧ row.1 ≠ newline ∧ Forall in_int row.2.

(** ** More vocabulary for [local_alignment] *)

(** The matrix has rows [0 .. n], each allocated with cells [0 .. m]. *)
Definition allocated {X : Type} (mat : matrix X) (n m : Z) : Prop :=
  Z.of_nat (length mat) = n + 1 ∧
  Forall (λ r, ∃ row, r = Some row ∧ Z.of_nat (length row) = m + 1) mat.

(** Column [best_j] is the first of the columns [1 ..] that holds
    [best_score], and [0] when [best_score] is [0]. *)
Definition first_best (vals : list Z) (best_score best_j : Z) : Prop :=
  (best_score = 0 ∧ best_j = 0) ∨
  (0 < best_score ∧ 1 ≤ best_j ∧
   vals !! Z.to_nat best_j = Some best_score ∧
   ∀ k v, (1 ≤ k < Z.to_nat best_j)%nat → vals !! k = Some v → v < best_score).

(** The two matrices hold the same in every cell but [(i, j)]. *)
Definition agree_off {X : Type} (i j : Z) (mat mat' : matrix X) : Prop :=
  ∀ i' j', i' ≠ i ∨ j' ≠ j → load2 mat' i' j' = load2 mat i' j'.

Definition GAP : ascii := "*"%char.

(** The characters of an aligned string that are not gap markers. *)
Definition ungap (s : list ascii) : list ascii :=
  filter (λ c, c ≠ GAP) s.

(** The piece [s[from .. to)] of a string. *)
Definition piece (s : list ascii) (from to : Z) : list ascii :=
  take (Z.to_nat (to - from)) (drop (Z.to_nat from) s).

(** The statement [c], when it returns, has left every cell of [d] and of
    [b] but [(i, j)] as it was. *)
Definition writes_only {A : Type} (i j : Z) (c : M A) : Prop :=
  ∀ st a st', c st = Ok a st' →
    agree_off i j (d st) (d st') ∧ agree_off i j (b st) (b st').

(** ** The fill, cell by cell *)

(** The cells [(i, j), (i, j + 1), ...] of row [i], [len] of them. *)
Fixpoint row_cells (i j : Z) (len : nat) : list (Z * Z) :=
  match len with
  | O => []
  | S len' => (i, j) :: row_cells i (j + 1) len'
  end.

(** The cells of columns [1 .. m] of [rows] rows from row [i] on, row by
    row: the order in which two nested loops over [i] and [j] visit them. *)
Fixpoint cells_from (i : Z) (rows m : nat) : list (Z * Z) :=
  match rows with
  | O => []
  | S rows' => row_cells i 1 m ++ cells_from (i + 1) rows' m
  end.

Definition cells (n m : nat) : list (Z * Z) := cells_from 1 n m.

(** The steps of the fill (lines 230-262) on the cells [cs], one after the
    other.  (The loops of lines 226-266 as written advance [i] in the
    inner loop, see [fill_row], and so do not run the steps of all cells.) *)
Fixpoint fill_cells (string1 string2 : list ascii) (cs : list (Z * Z))
    : M unit :=
  match cs with
  | [] => mret ()
  | c :: cs' =>
      fill_cell string1 string2 c.1 c.2;; fill_cells string1 string2 cs'
  end.

(** The score that [d[i][j]] holds ([0] where there is no such cell). *)
Definition score_at (st : mem) (i j : Z) : Z :=
  match load2 (d st) i j with
  | inr v => v
  | inl _ => 0
  end.

(** The matrix has rows [0 .. n] with cells [0 .. m], and every cell holds
    a value. *)
Definition initialised {X : Type} (mat : matrix X) (n m : Z) : Prop :=
  Z.of_nat (length mat) = n + 1 ∧
  Forall (λ r, ∃ vals : list X,
            r = Some (Some <$> vals) ∧ Z.of_nat (length vals) = m + 1) mat.

(** The cell [c] comes before the cell [c'], row by row. *)
Definition before (c c' : Z * Z) : Prop :=
  c.1 < c'.1 ∨ (c.1 = c'.1 ∧ c.2 < c'.2).

(** The state of a fill that has reached the cell [c]: the matrices are
    initialised, the penalties are those of [t], row [0] and column [0]
    hold [0], and every cell before [c] holds the score that the step of
    the fill computes, without overflow, from its three neighbours. *)
Definition filled_before (t : BlosumPenaltyArray)
    (string1 string2 : list ascii) (c : Z * Z) (st : mem) : Prop :=
  let n := Z.of_nat (length string1) in
  let m := Z.of_nat (length string2) in
  initialised (d st) n m ∧ initialised (b st) n m ∧
  (∀ x y, penalty (bpa st) x y = penalty t x y) ∧
  (∀ i j, i = 0 ∨ j = 0 → score_at st i j = 0) ∧
  (∀ i j c1 c2,
     slot string1 (i - 1) = Some c1 → slot string2 (j - 1) = Some c2 →
     before (i, j) c →
     in_int (score_at st (i - 1) j + penalty t c1 "*") ∧
     in_int (score_at st i (j - 1) + penalty t "*" c2) ∧
     in_int (score_at st (i - 1) (j - 1) + penalty t c1 c2) ∧
     score_at st i j =
       cell_score (score_at st (i - 1) j + penalty t c1 "*")
                  (score_at st i (j - 1) + penalty t "*" c2)
                  (score_at st (i - 1) (j - 1) + penalty t c1 c2)).

(** The state of a fill that has reached the cell [c] holds the matrix
    [D]: the matrices are initialised, the penalties are those of [t], and
    row [0], column [0] and every cell before [c] hold what [D] holds. *)
Definition holds_before (t : BlosumPenaltyArray)
    (string1 string2 : list ascii) (D : Z → Z → Z) (c : Z * Z) (st : mem)
    : Prop :=
  let n := Z.of_nat (length string1) in
  let m := Z.of_nat (length string2) in
  initialised (d st) n m ∧ initialised (b st) n m ∧
  (∀ x y, penalty (bpa st) x y = penalty t x y) ∧
  (∀ i j, 0 ≤ i ≤ n → 0 ≤ j ≤ m → i = 0 ∨ j = 0 ∨ before (i, j) c →
     score_at st i j = D i j).

(** Row [i] of a matrix, columns [0 .. m]. *)
Definition row_of (D : Z → Z → Z) (i m : Z) : list Z :=
  (λ j, D i j) <$> seqZ 0 (m + 1).

(** * Proofs *)

(** ** The table *)

Section table_facts.
Implicit Types (bpa : BlosumPenaltyArray) (a b : ascii) (p v : Z).

Lemma entry_insert bpa (c1 : ascii) (row : gmap ascii Z) a b :
  entry (<[c1 := row]> bpa) a b =
    if decide (a = c1) then row !! b else entry bpa a b.
Proof.
  unfold entry. case_decide as Ha.
  - subst a. by rewrite lookup_insert_eq.
  - by rewrite lookup_insert_ne.
Qed.

Lemma get_penalty_value bpa (c1 c2 : ascii) :
  fst (get_penalty bpa c1 c2) = default 0 (entry bpa c1 c2).
Proof.
  unfold get_penalty, entry, subscript.
  destruct (bpa !! c1) as [row|] eqn:Hrow; simpl.
  - destruct (row !! c2); reflexivity.
  - rewrite lookup_empty. reflexivity.
Qed.

Lemma get_penalty_entry bpa (c1 c2 : ascii) a b :
  entry (snd (get_penalty bpa c1 c2)) a b =
    if decide (a = c1 ∧ b = c2)
    then Some (default 0 (entry bpa c1 c2))
    else entry bpa a b.
Proof.
  unfold get_penalty, subscript.
  destruct (bpa !! c1) as [row|] eqn:Hrow;
    [destruct (row !! c2) as [v|] eqn:Hv|rewrite lookup_empty];
    simpl; rewrite ?insert_insert_eq, entry_insert;
    unfold entry; rewrite Hrow; simpl; rewrite ?Hv;
    (destruct (decide (a = c1)) as [->|Ha];
     [destruct (decide (b = c2)) as [->|Hb]|]);
    rewrite ?Hrow; simpl;
    rewrite ?lookup_insert_eq, ?lookup_insert_ne, ?lookup_empty by done;
    rewrite ?decide_True, ?decide_False by tauto; done.
Qed.

Lemma set_penalty_entry bpa (c1 c2 : ascii) p a b :
  entry (set_penalty bpa c1 c2 p) a b =
    if decide (a = c1 ∧ b = c2) then Some p else entry bpa a b.
Proof.
  unfold set_penalty, subscript.
  destruct (bpa !! c1) as [row|] eqn:Hrow;
    [destruct (row !! c2) as [v|] eqn:Hv|rewrite lookup_empty];
    simpl; rewrite ?insert_insert_eq, entry_insert;
    unfold entry; rewrite ?Hrow; simpl;
    (destruct (decide (a = c1)) as [->|Ha];
     [destruct (decide (b = c2)) as [->|Hb]|]);
    rewrite ?Hrow; simpl;
    rewrite ?lookup_insert_eq, ?lookup_insert_ne, ?lookup_empty by done;
    rewrite ?lookup_insert_ne, ?lookup_empty by done;
    rewrite ?decide_True, ?decide_False by tauto; done.
Qed.

(** A lookup of a recorded pair leaves the map as it is. *)
Lemma get_penalty_defined bpa (c1 c2 : ascii) v :
  entry bpa c1 c2 = Some v → get_penalty bpa c1 c2 = (v, bpa).
Proof.
  unfold get_penalty, entry, subscript. intros He.
  destruct (bpa !! c1) as [row|] eqn:Hrow; simpl in *; [|done].
  rewrite He. by rewrite insert_id.
Qed.

(** What a history of calls leaves in an entry: the penalty of the most
    recent [set_penalty] on it, else [0] if a lookup touched it, else
    whatever the table had. *)
Lemma run_ops_entry ops : ∀ bpa (c1 c2 : ascii),
  default 0 (entry (run_ops ops bpa) c1 c2) =
    default (default 0 (entry bpa c1 c2)) (last_set c1 c2 ops).
Proof.
  unfold run_ops.
  induction ops as [|o ops IH] using rev_ind; intros bpa c1 c2; [done|].
  rewrite foldl_app. simpl.
  assert (Hlast : last_set c1 c2 (ops ++ [o]) =
            match o with
            | OpSet a b p =>
                if decide (a = c1 ∧ b = c2) then Some p else last_set c1 c2 ops
            | OpGet _ _ => last_set c1 c2 ops
            end).
  { clear. induction ops as [|o' ops IH]; simpl.
    - destruct o; [case_decide|]; done.
    - rewrite IH. destruct o as [a b p|a b]; [case_decide|];
        destruct (last_set c1 c2 ops); done. }
  rewrite Hlast. destruct o as [a b p|a b]; simpl.
  - rewrite set_penalty_entry.
    destruct (decide (c1 = a ∧ c2 = b)) as [[-> ->]|Hne].
    + by rewrite decide_True.
    + rewrite decide_False by (intros [-> ->]; tauto). apply IH.
  - rewrite get_penalty_entry.
    destruct (decide (c1 = a ∧ c2 = b)) as [[-> ->]|Hne]; simpl; apply IH.
Qed.

(** A history of calls records nothing for a pair that none of them is on. *)
Lemma run_ops_untouched ops : ∀ bpa (c1 c2 : ascii),
  Forall (λ o, ¬ touches c1 c2 o) ops →
  entry (run_ops ops bpa) c1 c2 = entry bpa c1 c2.
Proof.
  unfold run_ops.
  induction ops as [|o ops IH]; intros bpa c1 c2 Hops; [done|].
  apply Forall_cons in Hops as [Ho Hops]. simpl. rewrite IH by done.
  destruct o as [a b p|a b]; simpl in *.
  - rewrite set_penalty_entry. apply decide_False. intros [-> ->]. tauto.
  - rewrite get_penalty_entry. apply decide_False. intros [-> ->]. tauto.
Qed.
End table_facts.

(** ** Running statements *)

Section run_facts.
Context {A B : Type}.

Lemma bind_ok (c : M A) (f : A → M B) st a st' :
  c st = Ok a st' → (c ≫= f) st = f a st'.
Proof. unfold mbind, M_bind. by intros ->. Qed.

Lemma bind_fault (c : M A) (f : A → M B) st e :
  c st = Fault e → (c ≫= f) st = Fault e.
Proof. unfold mbind, M_bind. by intros ->. Qed.

Lemma bind_not_ok (c : M A) (f : A → M B) st :
  is_ok (c st) = false → is_ok ((c ≫= f) st) = false.
Proof. unfold mbind, M_bind. by destruct (c st). Qed.

Lemma bind_not_ok_r (c : M A) (f : A → M B) st :
  (∀ a st', is_ok (f a st') = false) → is_ok ((c ≫= f) st) = false.
Proof. unfold mbind, M_bind. intros Hf. destruct (c st); auto. Qed.
End run_facts.

(** A loop whose condition holds at every state it can reach returns on no
    amount of fuel. *)
Lemma while_never_ok {S : Type} (I : S → Prop) (cond : S → bool) (body : S → M S) :
  (∀ s, I s → cond s = true) →
  (∀ s st s' st', I s → body s st = Ok s' st' → I s') →
  ∀ fuel s st, I s → is_ok (while_ fuel cond body s st) = false.
Proof.
  intros Hcond Hbody fuel.
  induction fuel as [|fuel IH]; intros s st Hs; [done|].
  simpl. rewrite (Hcond s Hs). unfold mbind, M_bind.
  destruct (body s st) as [s' st'| |] eqn:Hb; [|done..].
  eapply IH, Hbody; eauto.
Qed.

Lemma init_row_never_ok fuel m i st :
  0 ≤ m → is_ok (init_row fuel m i st) = false.
Proof.
  intros Hm. unfold init_row. apply bind_not_ok.
  apply (while_never_ok (λ s, s.2 = 0)); [| |done].
  - intros [i' j] Hj. simpl in Hj. subst j. apply bool_decide_eq_true. lia.
  - intros [i' j] st1 [i'' j'] st2 Hj. simpl in Hj. subst j. simpl.
    unfold mbind, M_bind.
    destruct (write_d i' 0 0 st1) as [? st1'| |]; [|done..].
    destruct (write_b i' 0 "?"%char st1') as [? st1''| |]; [|done..].
    unfold mret, M_ret. by intros [= _ <- _].
Qed.

Lemma init_matrices_never_ok fuel n m st :
  0 ≤ n → 0 ≤ m → is_ok (init_matrices fuel n m st) = false.
Proof.
  intros Hn Hm. unfold init_matrices. apply bind_not_ok.
  destruct fuel as [|fuel]; [done|]. simpl.
  rewrite bool_decide_eq_true_2 by lia.
  apply bind_not_ok, bind_not_ok. by apply init_row_never_ok.
Qed.

Lemma local_alignment_not_ok fuel i0 string1 string2 st :
  is_ok (local_alignment fuel i0 string1 string2 st) = false.
Proof.
  unfold local_alignment.
  do 3 (apply bind_not_ok_r; intros ? ?).
  apply bind_not_ok. apply init_matrices_never_ok; lia.
Qed.

Lemma slot_lt {X : Type} (a : list X) (i : Z) :
  0 ≤ i < Z.of_nat (length a) → is_Some (slot a i).
Proof.
  intros Hi. unfold slot. rewrite bool_decide_eq_true_2 by lia.
  apply lookup_lt_is_Some. lia.
Qed.

Lemma slot_out {X : Type} (a : list X) (i : Z) :
  i < 0 ∨ Z.of_nat (length a) ≤ i → slot a i = None.
Proof.
  intros Hi. unfold slot. case_bool_decide; [|done].
  apply lookup_ge_None. lia.
Qed.

Lemma store_out {X : Type} (a : array X) (i : Z) (x : X) :
  i < 0 ∨ Z.of_nat (length a) ≤ i → store a i x = inl OutOfBounds.
Proof. intros Hi. unfold store. by rewrite slot_out. Qed.

Lemma store_in {X : Type} (a : array X) (i : Z) (x : X) :
  0 ≤ i < Z.of_nat (length a) →
  store a i x = inr (<[Z.to_nat i := Some x]> a).
Proof.
  intros Hi. unfold store. by destruct (slot_lt a i Hi) as [y ->].
Qed.

(** The allocation loop started below [n + 2] assigns [d[n+1]], one past
    the [n + 1] row pointers. *)
Lemma alloc_rows_out_of_bounds n m fuel : ∀ i st,
  0 ≤ n →
  length (d st) = Z.to_nat (n + 1) → length (b st) = Z.to_nat (n + 1) →
  i < n + 2 → (Z.to_nat (n + 2 - Z.max i 0) ≤ fuel)%nat →
  alloc_rows fuel i n m st = Fault OutOfBounds.
Proof.
  unfold alloc_rows. intros i st Hn Hd Hb Hi Hfuel. apply bind_fault.
  revert i st Hd Hb Hi Hfuel.
  induction fuel as [|fuel IH]; intros i st Hd Hb Hi Hfuel; [lia|].
  simpl. rewrite bool_decide_eq_true_2 by lia.
  destruct (decide (0 ≤ i ≤ n)) as [Hin|Hout].
  - unfold mbind, M_bind, new_row_d, new_row_b.
    rewrite store_in by lia. simpl. rewrite store_in by lia. simpl.
    apply IH; simpl; rewrite ?length_insert; lia.
  - do 2 apply bind_fault. unfold new_row_d. rewrite store_out; [done|lia].
Qed.

(** Started at [n + 2] or above, the loop allocates no row. *)
Lemma alloc_rows_skipped n m fuel i st :
  n + 2 ≤ i → alloc_rows (S fuel) i n m st = Ok () st.
Proof.
  intros Hi. unfold alloc_rows. simpl.
  by rewrite bool_decide_eq_false_2 by lia.
Qed.

(** Without rows, the first assignment of the initialisation goes through
    a row pointer that was never set. *)
Lemma init_matrices_wild n m fuel st :
  0 ≤ n → 0 ≤ m → d st = new (n + 1) →
  init_matrices (S fuel) n m st = Fault WildPointer.
Proof.
  intros Hn Hm Hd. unfold init_matrices, init_row. simpl.
  rewrite !bool_decide_eq_true_2 by lia.
  do 6 apply bind_fault.
  unfold write_d, store2, load, slot. rewrite Hd. unfold new. simpl.
  replace (Z.to_nat (n + 1)) with (S (Z.to_nat n)) by lia. done.
Qed.

Lemma local_alignment_fault fuel i0 string1 string2 st :
  (length string1 + 2 ≤ fuel)%nat →
  local_alignment fuel i0 string1 string2 st =
    Fault (if bool_decide (i0 < Z.of_nat (length string1) + 2)
           then OutOfBounds else WildPointer).
Proof.
  intros Hfuel. unfold local_alignment.
  set (n := Z.of_nat (length string1)). set (m := Z.of_nat (length string2)).
  rewrite (bind_ok _ _ _ () (Mem (new (n + 1)) (b st) (bpa st))) by done.
  rewrite (bind_ok _ _ _ () (Mem (new (n + 1)) (new (n + 1)) (bpa st))) by done.
  case_bool_decide as Hi.
  - apply bind_fault. apply alloc_rows_out_of_bounds; simpl;
      unfold new; rewrite ?length_replicate; lia.
  - destruct fuel as [|fuel]; [lia|].
    rewrite (bind_ok _ _ _ () (Mem (new (n + 1)) (new (n + 1)) (bpa st)))
      by (apply alloc_rows_skipped; lia).
    apply bind_fault. apply init_matrices_wild; [lia..|done].
Qed.

Lemma fill_row_never_ok fuel string1 string2 m i st :
  1 ≤ m → is_ok (fill_row fuel string1 string2 m i st) = false.
Proof.
  intros Hm. unfold fill_row. apply bind_not_ok.
  apply (while_never_ok (λ s, s.2 = 1)); [| |done].
  - intros [i' j] Hj. simpl in Hj. subst j. apply bool_decide_eq_true. lia.
  - intros [i' j] st1 [i'' j'] st2 Hj. simpl in Hj. subst j. simpl.
    unfold mbind, M_bind.
    destruct (fill_cell string1 string2 i' 1 st1) as [? st1'| |]; [|done..].
    unfold mret, M_ret. by intros [= _ <- _].
Qed.

(** With two sequences that are not empty the fill does not return
    either, whatever the matrices hold. *)
Lemma fill_matrices_never_ok fuel string1 string2 n m st :
  1 ≤ n → 1 ≤ m →
  is_ok (fill_matrices fuel string1 string2 n m st) = false.
Proof.
  intros Hn Hm. unfold fill_matrices. apply bind_not_ok.
  destruct fuel as [|fuel]; [done|]. simpl.
  rewrite bool_decide_eq_true_2 by lia.
  apply bind_not_ok, bind_not_ok. by apply fill_row_never_ok.
Qed.

(** ** Cells *)

Lemma penalty_get_penalty t (x y c1 c2 : ascii) :
  penalty (snd (get_penalty t x y)) c1 c2 = penalty t c1 c2.
Proof.
  unfold penalty. rewrite !get_penalty_value, get_penalty_entry.
  case_decide as H; [destruct H as [-> ->]|]; done.
Qed.

(** The table after the three lookups of one step of the fill. *)
Lemma three_lookups_entry t (c1 c2 x y : ascii) :
  entry (snd (get_penalty (snd (get_penalty (snd (get_penalty
           t c1 "*")) "*" c2)) c1 c2)) x y =
    match entry t x y with
    | Some v => Some v
    | None =>
        if decide ((x = c1 ∧ y = "*"%char) ∨ (x = "*"%char ∧ y = c2) ∨
                   (x = c1 ∧ y = c2))
        then Some 0 else None
    end.
Proof.
  rewrite !get_penalty_entry.
  destruct (decide (x = c1 ∧ y = c2)) as [[-> ->]|H3].
  - destruct (decide (c1 = "*"%char ∧ c2 = c2)) as [[-> _]|H2].
    + destruct (decide ("*"%char = "*"%char ∧ c2 = "*"%char)) as [[_ ->]|H1].
      * rewrite decide_True by tauto. by destruct (entry t _ _).
      * rewrite decide_True by tauto. by destruct (entry t _ _).
    + destruct (decide (c1 = c1 ∧ c2 = "*"%char)) as [[_ ->]|H1].
      * rewrite decide_True by tauto. by destruct (entry t _ _).
      * rewrite decide_True by tauto. by destruct (entry t _ _).
  - destruct (decide (x = "*"%char ∧ y = c2)) as [[-> ->]|H2].
    + destruct (decide ("*"%char = c1 ∧ c2 = "*"%char)) as [[<- ->]|H1].
      * rewrite decide_True by tauto. by destruct (entry t _ _).
      * rewrite decide_True by tauto. by destruct (entry t _ _).
    + destruct (decide (x = c1 ∧ y = "*"%char)) as [[-> ->]|H1].
      * rewrite decide_True by tauto. by destruct (entry t _ _).
      * rewrite decide_False by tauto. by destruct (entry t _ _).
Qed.

Section heap_facts.
Context {X : Type}.
Implicit Types (mat : matrix X) (row : array X) (i j : Z) (x : X).

Lemma slot_Some_range {Y : Type} (a : list Y) i y :
  slot a i = Some y → 0 ≤ i < Z.of_nat (length a).
Proof.
  unfold slot. case_bool_decide; [|done]. intros Hl.
  apply lookup_lt_Some in Hl. lia.
Qed.

Lemma slot_insert {Y : Type} (a : list Y) i y :
  is_Some (slot a i) → slot (<[Z.to_nat i := y]> a) i = Some y.
Proof.
  intros [z Hz]. pose proof (slot_Some_range _ _ _ Hz).
  unfold slot. rewrite bool_decide_eq_true_2 by lia.
  apply list_lookup_insert_eq. lia.
Qed.

Lemma store2_writable mat i j x :
  writable mat i j →
  ∃ row, slot mat i = Some (Some row) ∧ is_Some (slot row j) ∧
    store2 mat i j x =
      inr (<[Z.to_nat i := Some (<[Z.to_nat j := Some x]> row)]> mat).
Proof.
  intros (row & Hrow & Hj). exists row. split_and!; [done..|].
  unfold store2, load, store. rewrite Hrow.
  by destruct Hj as [y ->].
Qed.

Lemma load2_stored mat row i j x :
  slot mat i = Some (Some row) → is_Some (slot row j) →
  load2 (<[Z.to_nat i := Some (<[Z.to_nat j := Some x]> row)]> mat) i j
    = inr x.
Proof.
  intros Hrow Hj. unfold load2, load.
  rewrite slot_insert by eauto. by rewrite slot_insert.
Qed.

Lemma writable_stored mat row i j x :
  slot mat i = Some (Some row) → is_Some (slot row j) →
  writable (<[Z.to_nat i := Some (<[Z.to_nat j := Some x]> row)]> mat) i j.
Proof.
  intros Hrow Hj. eexists. split; [apply slot_insert; eauto|].
  rewrite slot_insert; eauto.
Qed.
End heap_facts.

Lemma slot_insert_ne {Y : Type} (a : list Y) (i i' : Z) (y : Y) :
  0 ≤ i → i' ≠ i → slot (<[Z.to_nat i := y]> a) i' = slot a i'.
Proof.
  intros Hi Hne. unfold slot. case_bool_decide; [|done].
  apply list_lookup_insert_ne. lia.
Qed.

Lemma store2_agree_off {X : Type} (mat mat' : matrix X) (i j : Z) (x : X) :
  store2 mat i j x = inr mat' → agree_off i j mat mat'.
Proof.
  unfold store2, load, store.
  destruct (slot mat i) as [[row|]|] eqn:Hrow; try done.
  destruct (slot row j) as [y|] eqn:Hj; [|done]. intros [= <-] i' j' Hne.
  pose proof (slot_Some_range _ _ _ Hrow) as Hi.
  pose proof (slot_Some_range _ _ _ Hj) as Hj'.
  unfold load2, load. destruct (decide (i' = i)) as [->|Hi'].
  - rewrite slot_insert by eauto. rewrite Hrow.
    rewrite slot_insert_ne; [done|lia|]. destruct Hne; [done|lia].
  - by rewrite slot_insert_ne by lia.
Qed.

Lemma read_d_ok i j st x : load2 (d st) i j = inr x → read_d i j st = Ok x st.
Proof. unfold read_d, lift. by intros ->. Qed.

Lemma read_b_ok i j st c : load2 (b st) i j = inr c → read_b i j st = Ok c st.
Proof. unfold read_b, lift. by intros ->. Qed.

Lemma str_at_ok s k st c : slot s k = Some c → str_at s k st = Ok c st.
Proof. unfold str_at. by intros ->. Qed.

Lemma int_add_ok x y st : in_int (x + y) → int_add x y st = Ok (x + y) st.
Proof. intros H. unfold int_add. by rewrite bool_decide_eq_true_2. Qed.

Lemma bpa_get_penalty_ok c1 c2 st :
  bpa_get_penalty c1 c2 st =
    Ok (penalty (bpa st) c1 c2)
       (Mem (d st) (b st) (snd (get_penalty (bpa st) c1 c2))).
Proof. unfold bpa_get_penalty, penalty. by destruct (get_penalty _ _ _). Qed.

Lemma pick_direction up left diag :
  (pick up left diag).1 ∈ ["u"; "l"; "d"]%char.
Proof. unfold pick. repeat case_bool_decide; set_solver. Qed.

Lemma pick_order up left diag :
  (diag = Z.max (Z.max up left) diag → (pick up left diag).1 = "d"%char) ∧
  ((pick up left diag).1 = "l"%char → left > up ∧ left > diag) ∧
  ((pick up left diag).1 = "u"%char → up >= left ∧ up > diag) ∧
  (up = left → up > diag → (pick up left diag).1 = "u"%char).
Proof.
  unfold pick.
  repeat case_bool_decide; simpl; split_and!; intros; try done; lia.
Qed.

Lemma pick_score up left diag :
  (pick up left diag).2 = Z.max (Z.max up left) diag.
Proof. unfold pick. repeat case_bool_decide; simpl; lia. Qed.

Lemma pick_largest up left diag :
  ((pick up left diag).1 = "u"%char → up = Z.max (Z.max up left) diag) ∧
  ((pick up left diag).1 = "l"%char → left = Z.max (Z.max up left) diag) ∧
  ((pick up left diag).1 = "d"%char → diag = Z.max (Z.max up left) diag).
Proof.
  unfold pick.
  repeat case_bool_decide; simpl; split_and!; intros; try done; lia.
Qed.

(** One step of the fill on a cell whose three neighbours hold scores. *)
Lemma fill_cell_ok string1 string2 i j st c1 c2 xu xl xd :
  slot string1 (i - 1) = Some c1 →
  slot string2 (j - 1) = Some c2 →
  load2 (d st) (i - 1) j = inr xu →
  load2 (d st) i (j - 1) = inr xl →
  load2 (d st) (i - 1) (j - 1) = inr xd →
  writable (d st) i j →
  writable (b st) i j →
  let up := xu + penalty (bpa st) c1 "*" in
  let left := xl + penalty (bpa st) "*" c2 in
  let diag := xd + penalty (bpa st) c1 c2 in
  in_int up → in_int left → in_int diag →
  ∃ st',
    fill_cell string1 string2 i j st = Ok () st' ∧
    load2 (d st') i j = inr ((pick up left diag).2 `max` 0) ∧
    load2 (b st') i j = inr (pick up left diag).1 ∧
    bpa st' = snd (get_penalty (snd (get_penalty (snd (get_penalty
                (bpa st) c1 "*")) "*" c2)) c1 c2).
Proof.
  intros Hc1 Hc2 Hu Hl Hd Hwd Hwb up left diag Hup Hleft Hdiag.
  unfold fill_cell.
  erewrite bind_ok by (by apply read_d_ok).
  erewrite bind_ok by (by apply str_at_ok).
  erewrite bind_ok by apply bpa_get_penalty_ok.
  erewrite bind_ok by (by apply int_add_ok).
  erewrite bind_ok by (by apply read_d_ok).
  erewrite bind_ok by (by apply str_at_ok).
  erewrite bind_ok by apply bpa_get_penalty_ok.
  simpl. rewrite penalty_get_penalty.
  erewrite bind_ok by (by apply int_add_ok).
  erewrite bind_ok by (by apply read_d_ok).
  erewrite bind_ok by (by apply str_at_ok).
  erewrite bind_ok by (by apply str_at_ok).
  erewrite bind_ok by apply bpa_get_penalty_ok.
  simpl. rewrite !penalty_get_penalty.
  erewrite bind_ok by (by apply int_add_ok).
  fold up left diag.
  destruct (pick up left diag) as [dir best] eqn:Hpick. simpl.
  destruct (store2_writable _ _ _ dir Hwb) as (rowb & Hrowb & Hjb & Hsb).
  destruct (store2_writable _ _ _ best Hwd) as (rowd & Hrowd & Hjd & Hsd).
  unfold mbind at 1, M_bind at 1, write_b at 1. simpl. rewrite Hsb.
  unfold mbind at 1, M_bind at 1, write_d at 1. simpl. rewrite Hsd.
  unfold mbind at 1, M_bind at 1, read_d at 1, lift. simpl.
  rewrite load2_stored by done.
  case_bool_decide as Hneg.
  - pose proof (writable_stored _ _ _ _ best Hrowd Hjd) as Hw.
    destruct (store2_writable _ _ _ 0 Hw) as (row' & Hrow' & Hj' & Hs').
    unfold write_d. simpl. rewrite Hs'. eexists. split; [done|]. simpl.
    split_and!; [|by apply load2_stored|done].
    rewrite load2_stored by done. f_equal. lia.
  - eexists. split; [done|]. simpl.
    split_and!; [|by apply load2_stored|done].
    rewrite load2_stored by done. f_equal. lia.
Qed.

(** ** The search for the best score *)

Lemma foldl_max_ge (l : list Z) : ∀ a, a ≤ foldl Z.max a l.
Proof.
  induction l as [|x l IH]; intros a; simpl; [lia|].
  specialize (IH (Z.max a x)). lia.
Qed.

Lemma foldl_max_elem (l : list Z) : ∀ a x, x ∈ l → x ≤ foldl Z.max a l.
Proof.
  induction l as [|y l IH]; intros a x Hx; [by apply elem_of_nil in Hx|].
  simpl. apply elem_of_cons in Hx as [->|Hx]; [|by apply IH].
  pose proof (foldl_max_ge l (Z.max a y)). lia.
Qed.

Lemma foldl_max_attained (l : list Z) : ∀ a,
  foldl Z.max a l = a ∨ foldl Z.max a l ∈ l.
Proof.
  induction l as [|y l IH]; intros a; simpl; [by left|].
  destruct (IH (Z.max a y)) as [->|Hin].
  - destruct (Z.max_spec a y) as [[_ ->]|[_ ->]]; [right; left|by left].
  - right. by right.
Qed.

Lemma row_best_spec (vals : list Z) :
  0 ≤ row_best vals ∧
  (∀ j v, (1 ≤ j)%nat → vals !! j = Some v → v ≤ row_best vals) ∧
  (row_best vals = 0 ∨ ∃ j, (1 ≤ j)%nat ∧ vals !! j = Some (row_best vals)).
Proof.
  unfold row_best. split_and!.
  - apply foldl_max_ge.
  - intros j v Hj Hv. apply foldl_max_elem.
    apply list_elem_of_lookup. exists (j - 1)%nat.
    rewrite lookup_drop. by replace (1 + (j - 1))%nat with j by lia.
  - destruct (foldl_max_attained (drop 1 vals) 0) as [|Hin]; [by left|right].
    apply list_elem_of_lookup in Hin as [k Hk]. rewrite lookup_drop in Hk.
    exists (1 + k)%nat. split; [lia|done].
Qed.

Lemma find_best_loop best_i m st (vals : list Z) fuel :
  ∀ j best_score best_j,
  slot (d st) best_i = Some (Some (Some <$> vals)) →
  Z.of_nat (length vals) = m + 1 →
  1 ≤ j →
  (Z.to_nat (m + 1 - j) < fuel)%nat →
  best_at vals best_score best_j →
  ∃ j' best_j',
    while_ fuel (λ '(j, _, _), bool_decide (j < m + 1))
      (λ '(j, best_score, best_j),
         v ← read_d best_i j;
         if bool_decide (v > best_score) then mret (j + 1, v, j)
         else mret (j + 1, best_score, best_j))
      (j, best_score, best_j) st
    = Ok (j', foldl Z.max best_score (drop (Z.to_nat j) vals), best_j') st ∧
    best_at vals (foldl Z.max best_score (drop (Z.to_nat j) vals)) best_j'.
Proof.
  induction fuel as [|fuel IH]; intros j bs bj Hrow Hlen Hj Hfuel Hat; [lia|].
  simpl. case_bool_decide as Hjm.
  - assert (Hv : is_Some (vals !! Z.to_nat j)) by (apply lookup_lt_is_Some; lia).
    destruct Hv as [v Hv].
    assert (Hload : load2 (d st) best_i j = inr v).
    { unfold load2, load. rewrite Hrow. unfold slot.
      rewrite bool_decide_eq_true_2 by lia.
      by rewrite list_lookup_fmap, Hv. }
    unfold mbind at 1, M_bind at 1.
    erewrite bind_ok by (by apply read_d_ok).
    rewrite (drop_S _ _ _ Hv). simpl.
    replace (S (Z.to_nat j)) with (Z.to_nat (j + 1)) by lia.
    case_bool_decide as Hgt; unfold mret, M_ret.
    + replace (Z.max bs v) with v by lia. apply IH; [done..|lia|lia|].
      right. destruct Hat as [[-> _]|[? _]]; split_and!; try done; lia.
    + replace (Z.max bs v) with bs by lia. apply IH; [done..|lia|lia|done].
  - exists j, bj. rewrite drop_ge by lia. done.
Qed.

Lemma find_best_ok fuel best_i m st (vals : list Z) :
  slot (d st) best_i = Some (Some (Some <$> vals)) →
  Z.of_nat (length vals) = m + 1 →
  (Z.to_nat m < fuel)%nat →
  ∃ best_j,
    find_best fuel best_i m st = Ok (row_best vals, best_j) st ∧
    best_at vals (row_best vals) best_j.
Proof.
  intros Hrow Hlen Hfuel. unfold find_best.
  destruct (find_best_loop best_i m st vals fuel 1 0 0)
    as (j' & bj & Hloop & Hat); [done|done|lia|lia|by left|].
  exists bj. by erewrite bind_ok by exact Hloop.
Qed.

(** ** Score matrices *)

Lemma cell_score_swap up left diag :
  cell_score up left diag = cell_score left up diag.
Proof. unfold cell_score. rewrite !pick_score. lia. Qed.

(** ** A table of unit scores *)

Lemma set_row_entry (cols : list ascii) : ∀ t (c1 x y : ascii),
  entry (set_row cols t c1) x y =
    if decide (x = c1 ∧ y ∈ cols) then Some (unit_score c1 y) else entry t x y.
Proof.
  unfold set_row. induction cols as [|c cols IH]; intros t c1 x y.
  - case_decide as H; [|done]. destruct H as [_ H]. by apply elem_of_nil in H.
  - cbn [foldl]. rewrite IH, set_penalty_entry.
    destruct (decide (x = c1 ∧ y ∈ cols)) as [[-> Hy]|Hn].
    { rewrite decide_True; [done|]. split; [done|]. by apply elem_of_cons; right. }
    destruct (decide (x = c1 ∧ y = c)) as [[-> ->]|Hn'].
    { rewrite decide_True; [done|]. split; [done|]. by apply elem_of_cons; left. }
    rewrite decide_False; [done|].
    intros [-> Hy]. apply elem_of_cons in Hy as [->|Hy]; tauto.
Qed.

Lemma set_rows_entry (cols rows : list ascii) : ∀ t (x y : ascii),
  entry (foldl (set_row cols) t rows) x y =
    if decide (x ∈ rows ∧ y ∈ cols) then Some (unit_score x y) else entry t x y.
Proof.
  induction rows as [|r rows IH]; intros t x y.
  - case_decide as H; [|done]. destruct H as [H _]. by apply elem_of_nil in H.
  - cbn [foldl]. rewrite IH, set_row_entry.
    destruct (decide (x ∈ rows ∧ y ∈ cols)) as [[Hx Hy]|Hn].
    { rewrite decide_True; [done|]. split; [|done]. by apply elem_of_cons; right. }
    destruct (decide (x = r ∧ y ∈ cols)) as [[-> Hy]|Hn'].
    { rewrite decide_True; [done|]. split; [|done]. by apply elem_of_cons; left. }
    rewrite decide_False; [done|].
    intros [Hx Hy]. apply elem_of_cons in Hx as [->|Hx]; tauto.
Qed.

Lemma unit_scores_penalty (alphabet : list ascii) (x y : ascii) :
  penalty (unit_scores alphabet) x y =
    if decide (x ∈ alphabet ∧ y ∈ alphabet) then unit_score x y else 0.
Proof.
  unfold penalty, unit_scores. rewrite get_penalty_value, set_rows_entry.
  by case_decide.
Qed.

Lemma unit_scores_symmetric (alphabet : list ascii) :
  symmetric (unit_scores alphabet).
Proof.
  intros x y. rewrite !unit_scores_penalty.
  destruct (decide (x ∈ alphabet ∧ y ∈ alphabet)) as [[Hx Hy]|Hn].
  - rewrite decide_True by done. unfold unit_score.
    destruct (decide (x = y)) as [->|Hne]; [done|].
    by rewrite !bool_decide_eq_false_2.
  - by rewrite decide_False by tauto.
Qed.

(** ** The trace back *)

Lemma traceback_loop string1 string2 st fuel : ∀ i j ms1 ms2,
  trace_matrix (b st) (Z.of_nat (length string1)) (Z.of_nat (length string2)) →
  0 ≤ i ≤ Z.of_nat (length string1) →
  0 ≤ j ≤ Z.of_nat (length string2) →
  length ms1 = length ms2 →
  (Z.to_nat (i + j) + 2 ≤ fuel)%nat →
  ∃ w,
    while_ fuel (λ w, negb (done w)) (traceback_step string1 string2)
      (Walk i j ms1 ms2 false) st = Ok w st ∧
    length (matchString1 w) = length (matchString2 w) ∧
    (length (matchString1 w) ≤ length ms1 + Z.to_nat (i + j))%nat ∧
    (i = 0 ∨ j = 0 → matchString1 w = ms1 ∧ matchString2 w = ms2).
Proof.
  induction fuel as [|fuel IH]; intros i j ms1 ms2 Hb Hi Hj Hlen Hfuel; [lia|].
  destruct (Hb i j Hi Hj) as (c & Hc & Hdir & Hedge).
  cbn [while_ done negb]. unfold traceback_step.
  unfold mbind at 1, M_bind at 1.
  erewrite bind_ok by (by apply read_b_ok).
  assert (Hinner : c ≠ "?"%char → 1 ≤ i ∧ 1 ≤ j).
  { intros Hne. destruct (decide (i = 0 ∨ j = 0)) as [H0|H0]; [|lia].
    by apply Hedge in H0. }
  apply elem_of_cons in Hdir as [->|Hdir].
  { destruct Hinner as [Hi1 Hj1]; [done|].
    destruct (slot_lt string1 (i - 1)) as [x Hx]; [lia|].
    rewrite bool_decide_eq_true_2 by done.
    erewrite bind_ok by (by apply str_at_ok). unfold mret, M_ret.
    destruct (IH (i - 1) j (ms1 ++ [x]) (ms2 ++ ["*"%char]))
      as (w & Hw & Heq & Hle & _); [done|lia|lia| |lia|].
    { rewrite !length_app. simpl. lia. }
    exists w. split_and!; [done..| |lia]. rewrite length_app in Hle.
    simpl in Hle. lia. }
  apply elem_of_cons in Hdir as [->|Hdir].
  { destruct Hinner as [Hi1 Hj1]; [done|].
    destruct (slot_lt string2 (j - 1)) as [y Hy]; [lia|].
    rewrite bool_decide_eq_false_2 by done.
    rewrite bool_decide_eq_true_2 by done.
    erewrite bind_ok by (by apply str_at_ok). unfold mret, M_ret.
    destruct (IH i (j - 1) (ms1 ++ ["*"%char]) (ms2 ++ [y]))
      as (w & Hw & Heq & Hle & _); [done|lia|lia| |lia|].
    { rewrite !length_app. simpl. lia. }
    exists w. split_and!; [done..| |lia]. rewrite length_app in Hle.
    simpl in Hle. lia. }
  apply elem_of_cons in Hdir as [->|Hdir].
  { destruct Hinner as [Hi1 Hj1]; [done|].
    destruct (slot_lt string1 (i - 1)) as [x Hx]; [lia|].
    destruct (slot_lt string2 (j - 1)) as [y Hy]; [lia|].
    rewrite !bool_decide_eq_false_2 by done.
    rewrite bool_decide_eq_true_2 by done.
    erewrite bind_ok by (by apply str_at_ok).
    erewrite bind_ok by (by apply str_at_ok). unfold mret, M_ret.
    destruct (IH (i - 1) (j - 1) (ms1 ++ [x]) (ms2 ++ [y]))
      as (w & Hw & Heq & Hle & _); [done|lia|lia| |lia|].
    { rewrite !length_app. simpl. lia. }
    exists w. split_and!; [done..| |lia]. rewrite length_app in Hle.
    simpl in Hle. lia. }
  apply list_elem_of_singleton in Hdir as ->.
  rewrite !bool_decide_eq_false_2 by done.
  rewrite bool_decide_eq_true_2 by done. unfold mret, M_ret.
  destruct fuel as [|fuel]; [lia|]. simpl. unfold mret, M_ret.
  eexists. split_and!; [done|done|simpl; lia|done].
Qed.

(** On a well-formed trace matrix the walk ends, and it has appended as
    many characters to one string as to the other. *)
Lemma traceback_lockstep fuel string1 string2 st best_i best_j :
  trace_matrix (b st) (Z.of_nat (length string1)) (Z.of_nat (length string2)) →
  0 ≤ best_i ≤ Z.of_nat (length string1) →
  0 ≤ best_j ≤ Z.of_nat (length string2) →
  (Z.to_nat (best_i + best_j) + 2 ≤ fuel)%nat →
  ∃ ms1 ms2,
    traceback fuel string1 string2 best_i best_j st = Ok (ms1, ms2) st ∧
    length ms1 = length ms2 ∧
    (length ms1 ≤ Z.to_nat (best_i + best_j))%nat ∧
    (best_i = 0 ∨ best_j = 0 → ms1 = [] ∧ ms2 = []).
Proof.
  intros Hb Hi Hj Hfuel. unfold traceback.
  destruct (traceback_loop string1 string2 st fuel best_i best_j [] [])
    as (w & Hw & Hlen & Hle & Hedge); [done..|].
  exists (matchString1 w), (matchString2 w).
  by erewrite bind_ok by exact Hw.
Qed.

(** The loops of lines 306-315 return the reversed string. *)
Lemma reversed_loop (s : list ascii) st fuel : ∀ x temp,
  -1 ≤ x < Z.of_nat (length s) →
  (Z.to_nat (x + 1) < fuel)%nat →
  while_ fuel (λ '(x, _), bool_decide (x >= 0))
    (λ '(x, temp), c ← str_at s x; mret (x - 1, temp ++ [c])) (x, temp) st
  = Ok (-1, temp ++ rev (take (Z.to_nat (x + 1)) s)) st.
Proof.
  induction fuel as [|fuel IH]; intros x temp Hx Hfuel; [lia|].
  simpl. case_bool_decide as Hx0.
  - destruct (slot_lt s x) as [c Hc]; [lia|].
    unfold mbind at 1, M_bind at 1.
    erewrite bind_ok by (by apply str_at_ok). unfold mret, M_ret.
    rewrite IH by lia.
    replace (Z.to_nat (x + 1)) with (S (Z.to_nat x)) by lia.
    replace (x - 1 + 1) with x by lia.
    unfold slot in Hc. rewrite bool_decide_eq_true_2 in Hc by lia.
    rewrite (take_S_r _ _ _ Hc), rev_app_distr. simpl.
    by rewrite <- app_assoc.
  - replace x with (-1) by lia. simpl. by rewrite app_nil_r.
Qed.

Lemma reversed_ok fuel (s : list ascii) st :
  (length s < fuel)%nat → reversed fuel s st = Ok (rev s) st.
Proof.
  intros Hfuel. unfold reversed.
  erewrite bind_ok by (apply reversed_loop; lia). simpl.
  replace (Z.to_nat (Z.of_nat (length s) - 1 + 1)) with (length s) by lia.
  by rewrite firstn_all.
Qed.

(** ** Lines 267-318 on initialised matrices *)

(** On matrices that hold scores in row [n] of [d] and a well-formed
    trace in [b], the rest of the function returns: the score is the best
    of the last row, it is not negative, and the two strings have the same
    length. *)
Lemma read_off_ok fuel string1 string2 st (vals : list Z) :
  let n := Z.of_nat (length string1) in
  let m := Z.of_nat (length string2) in
  slot (d st) n = Some (Some (Some <$> vals)) →
  Z.of_nat (length vals) = m + 1 →
  trace_matrix (b st) n m →
  (length string1 + length string2 + 2 ≤ fuel)%nat →
  ∃ ms1 ms2,
    read_off fuel string1 string2 st = Ok (row_best vals, ms1, ms2) st ∧
    0 ≤ row_best vals ∧
    length ms1 = length ms2 ∧
    (row_best vals = 0 → ms1 = [] ∧ ms2 = []).
Proof.
  intros n m Hrow Hlen Hb Hfuel. unfold read_off. fold n m.
  destruct (find_best_ok fuel n m st vals) as (bj & Hfind & Hat);
    [done|done|lia|].
  assert (Hbj : 0 ≤ bj ≤ m).
  { destruct Hat as [[_ ->]|(_ & ? & Hl)]; [lia|].
    apply lookup_lt_Some in Hl. lia. }
  destruct (traceback_lockstep fuel string1 string2 st n bj)
    as (ms1 & ms2 & Htb & Heq & Hle & Hedge); [done|lia|lia|lia|].
  exists (rev ms1), (rev ms2).
  erewrite bind_ok by exact Hfind. cbn beta iota.
  erewrite bind_ok by exact Htb. cbn beta iota.
  erewrite bind_ok by (apply reversed_ok; lia).
  erewrite bind_ok by (apply reversed_ok; lia).
  split_and!; [done|apply row_best_spec|by rewrite !length_rev|].
  intros H0. destruct Hat as [[_ ->]|[? _]]; [|lia].
  by destruct Hedge as [-> ->]; [right|].
Qed.

Lemma grid_load2 {X : Type} (n m i j : Z) (x : X) :
  0 ≤ i ≤ n → 0 ≤ j ≤ m → load2 (grid n m x) i j = inr x.
Proof.
  intros Hi Hj. unfold load2, load, grid, slot.
  rewrite bool_decide_eq_true_2 by lia.
  rewrite lookup_replicate_2 by lia.
  rewrite bool_decide_eq_true_2 by lia.
  by rewrite lookup_replicate_2 by lia.
Qed.

(** With an empty sequence the fill returns and changes nothing. *)
Lemma fill_matrices_empty fuel string1 string2 st :
  let n := Z.of_nat (length string1) in
  let m := Z.of_nat (length string2) in
  string1 = [] ∨ string2 = [] →
  (length string1 + 1 ≤ fuel)%nat →
  fill_matrices fuel string1 string2 n m st = Ok () st.
Proof.
  intros n m Hempty Hfuel. unfold fill_matrices.
  assert (Hloop : ∀ k i, 1 ≤ i → (Z.to_nat (n + 1 - i) < k)%nat →
            (k ≤ fuel)%nat →
            ∃ i', while_ k (λ i, bool_decide (i < n + 1))
              (λ i, i' ← fill_row fuel string1 string2 m i; mret (i' + 1))
              i st = Ok i' st).
  { induction k as [|k IH]; intros i Hi Hk Hkf; [lia|].
    simpl. case_bool_decide as Hin; [|by eexists].
    destruct Hempty as [->| ->]; [simpl in n; lia|].
    destruct fuel as [|fuel']; [lia|]. unfold fill_row. simpl.
    unfold mbind, M_bind, mret, M_ret. simpl.
    apply IH; lia. }
  destruct (Hloop fuel 1) as [i' Hi']; [lia..|].
  by erewrite bind_ok by exact Hi'.
Qed.

(** With an empty sequence, on matrices that hold [0] and ['?'] in every
    cell, the function from the fill on returns the score [0] and two
    empty strings. *)
Lemma fill_read_off_empty fuel string1 string2 t :
  let n := Z.of_nat (length string1) in
  let m := Z.of_nat (length string2) in
  string1 = [] ∨ string2 = [] →
  (length string1 + length string2 + 2 ≤ fuel)%nat →
  (fill_matrices fuel string1 string2 n m;; read_off fuel string1 string2)
    (blank n m t) = Ok (0, [], []) (blank n m t).
Proof.
  intros n m Hempty Hfuel.
  erewrite bind_ok by (apply fill_matrices_empty; [done|lia]).
  destruct (read_off_ok fuel string1 string2 (blank n m t)
              (replicate (Z.to_nat (m + 1)) 0))
    as (ms1 & ms2 & Hrun & _ & _ & Hnil).
  - unfold blank, grid, slot. simpl. rewrite bool_decide_eq_true_2 by lia.
    rewrite lookup_replicate_2 by lia. by rewrite fmap_replicate.
  - rewrite length_replicate. lia.
  - intros i j Hi Hj. exists "?"%char. split_and!.
    + by apply grid_load2.
    + rewrite !elem_of_cons. tauto.
    + done.
  - done.
  - assert (H0 : row_best (replicate (Z.to_nat (m + 1)) 0) = 0).
    { destruct (row_best_spec (replicate (Z.to_nat (m + 1)) 0))
        as (_ & _ & [H|(j & _ & Hj)]); [done|].
      by apply lookup_replicate in Hj as [H _]. }
    rewrite H0 in Hrun. by destruct (Hnil H0) as [-> ->].
Qed.

(** ** Worked instances *)

Example fill_half_AB_A :
  fill_cell (str "AB") (str "A") 1 1 (blank 2 1 AB_scores) = Ok () half_AB_A.
Proof. vm_compute. reflexivity. Qed.

Example fill_AB_A :
  (fill_cell (str "AB") (str "A") 1 1;; fill_cell (str "AB") (str "A") 2 1)
    (blank 2 1 AB_scores) = Ok () filled_AB_A.
Proof. vm_compute. reflexivity. Qed.

Example fill_A_AB :
  (fill_cell (str "A") (str "AB") 1 1;; fill_cell (str "A") (str "AB") 1 2)
    (blank 1 2 AB_scores) = Ok () filled_A_AB.
Proof. vm_compute. reflexivity. Qed.

(** The initialisation alone, on matrices whose rows are all allocated:
    its inner loop advances [i] and not [j], and leaves the rows. *)
Example init_matrices_AB_A :
  init_matrices 10 2 1 (blank 2 1 AB_scores) = Fault OutOfBounds.
Proof. vm_compute. reflexivity. Qed.

(** The fill alone, on initialised matrices: the same. *)
Example fill_matrices_AB_A :
  fill_matrices 10 (str "AB") (str "A") 2 1 (blank 2 1 AB_scores)
    = Fault OutOfBounds.
Proof. vm_compute. reflexivity. Qed.

(** ** The fill, cell by cell *)

Lemma int_add_overflow x y st : ¬ in_int (x + y) → int_add x y st = Fault Overflow.
Proof. intros H. unfold int_add. by rewrite bool_decide_eq_false_2. Qed.

Lemma store2_row {X : Type} (mat : matrix X) (row : array X) (i j : Z) (x : X) :
  slot mat i = Some (Some row) → is_Some (slot row j) →
  store2 mat i j x
    = inr (<[Z.to_nat i := Some (<[Z.to_nat j := Some x]> row)]> mat).
Proof.
  intros Hrow [y Hy]. unfold store2, load, store. by rewrite Hrow, Hy.
Qed.

(** One step of the fill on a cell whose three neighbours hold scores:
    it stops on an overflow of a candidate, and else leaves this state. *)
Lemma fill_cell_cases string1 string2 i j st c1 c2 xu xl xd rowd rowb :
  slot string1 (i - 1) = Some c1 →
  slot string2 (j - 1) = Some c2 →
  load2 (d st) (i - 1) j = inr xu →
  load2 (d st) i (j - 1) = inr xl →
  load2 (d st) (i - 1) (j - 1) = inr xd →
  slot (d st) i = Some (Some rowd) → is_Some (slot rowd j) →
  slot (b st) i = Some (Some rowb) → is_Some (slot rowb j) →
  let up := xu + penalty (bpa st) c1 "*" in
  let left := xl + penalty (bpa st) "*" c2 in
  let diag := xd + penalty (bpa st) c1 c2 in
  fill_cell string1 string2 i j st =
    if decide (in_int up ∧ in_int left ∧ in_int diag) then
      Ok () (Mem
        (<[Z.to_nat i :=
             Some (<[Z.to_nat j := Some (cell_score up left diag)]> rowd)]>
           (d st))
        (<[Z.to_nat i :=
             Some (<[Z.to_nat j := Some (pick up left diag).1]> rowb)]>
           (b st))
        (snd (get_penalty (snd (get_penalty (snd (get_penalty
                (bpa st) c1 "*")) "*" c2)) c1 c2)))
    else Fault Overflow.
Proof.
  intros Hc1 Hc2 Hu Hl Hd Hrowd Hjd Hrowb Hjb up left diag.
  unfold fill_cell.
  erewrite bind_ok by (by apply read_d_ok).
  erewrite bind_ok by (by apply str_at_ok).
  erewrite bind_ok by apply bpa_get_penalty_ok.
  destruct (decide (in_int up)) as [Hup|Hup]; cycle 1.
  { rewrite decide_False by tauto. by apply bind_fault, int_add_overflow. }
  erewrite bind_ok by (by apply int_add_ok).
  erewrite bind_ok by (by apply read_d_ok).
  erewrite bind_ok by (by apply str_at_ok).
  erewrite bind_ok by apply bpa_get_penalty_ok.
  simpl. rewrite penalty_get_penalty.
  destruct (decide (in_int left)) as [Hleft|Hleft]; cycle 1.
  { rewrite decide_False by tauto. by apply bind_fault, int_add_overflow. }
  erewrite bind_ok by (by apply int_add_ok).
  erewrite bind_ok by (by apply read_d_ok).
  erewrite bind_ok by (by apply str_at_ok).
  erewrite bind_ok by (by apply str_at_ok).
  erewrite bind_ok by apply bpa_get_penalty_ok.
  simpl. rewrite !penalty_get_penalty.
  destruct (decide (in_int diag)) as [Hdiag|Hdiag]; cycle 1.
  { rewrite decide_False by tauto. by apply bind_fault, int_add_overflow. }
  erewrite bind_ok by (by apply int_add_ok).
  rewrite decide_True by done.
  fold up left diag. unfold cell_score.
  destruct (pick up left diag) as [dir best] eqn:Hpick. simpl.
  unfold mbind at 1, M_bind at 1, write_b at 1. simpl.
  rewrite (store2_row _ _ _ _ dir Hrowb Hjb).
  unfold mbind at 1, M_bind at 1, write_d at 1. simpl.
  rewrite (store2_row _ _ _ _ best Hrowd Hjd).
  unfold mbind at 1, M_bind at 1, read_d at 1, lift. simpl.
  rewrite load2_stored by done.
  case_bool_decide as Hneg.
  - unfold write_d. simpl.
    erewrite store2_row;
      [|apply slot_insert; eauto|rewrite slot_insert; eauto].
    rewrite !list_insert_insert_eq.
    by replace (Z.max best 0) with 0 by lia.
  - unfold mret, M_ret. by replace (Z.max best 0) with best by lia.
Qed.

Lemma initialised_row {X : Type} (mat : matrix X) (n m i : Z) :
  initialised mat n m → 0 ≤ i ≤ n →
  ∃ vals, slot mat i = Some (Some (Some <$> vals)) ∧
          Z.of_nat (length vals) = m + 1.
Proof.
  intros [Hlen Hrows] Hi.
  destruct (slot_lt mat i) as [r Hr]; [lia|].
  assert (Hin : r ∈ mat).
  { unfold slot in Hr. case_bool_decide; [|done].
    by eapply list_elem_of_lookup_2. }
  rewrite Forall_forall in Hrows. destruct (Hrows r Hin) as (vals & -> & Hvals).
  by exists vals.
Qed.

Lemma load2_row {X : Type} (mat : matrix X) (vals : list X) (i j : Z) :
  slot mat i = Some (Some (Some <$> vals)) →
  load2 mat i j =
    match slot vals j with Some v => inr v | None => inl OutOfBounds end.
Proof.
  intros Hrow. unfold load2, load. rewrite Hrow. unfold slot.
  case_bool_decide; [|done]. rewrite list_lookup_fmap.
  by destruct (vals !! Z.to_nat j).
Qed.

Lemma initialised_load2 {X : Type} (mat : matrix X) (n m i j : Z) :
  initialised mat n m → 0 ≤ i ≤ n → 0 ≤ j ≤ m →
  ∃ v, load2 mat i j = inr v.
Proof.
  intros Hmat Hi Hj.
  destruct (initialised_row mat n m i Hmat Hi) as (vals & Hrow & Hlen).
  rewrite (load2_row _ _ _ _ Hrow).
  destruct (slot_lt vals j) as [v ->]; [lia|]. by exists v.
Qed.

Lemma score_at_load2 st (n m i j : Z) :
  initialised (d st) n m → 0 ≤ i ≤ n → 0 ≤ j ≤ m →
  load2 (d st) i j = inr (score_at st i j).
Proof.
  intros Hmat Hi Hj.
  destruct (initialised_load2 _ _ _ _ _ Hmat Hi Hj) as [v Hv].
  unfold score_at. by rewrite Hv.
Qed.

Lemma initialised_insert {X : Type} (mat : matrix X) (row : array X)
    (n m i j : Z) (x : X) :
  initialised mat n m → slot mat i = Some (Some row) →
  initialised (<[Z.to_nat i := Some (<[Z.to_nat j := Some x]> row)]> mat) n m.
Proof.
  intros [Hlen Hrows] Hrow. split; [by rewrite length_insert|].
  apply Forall_insert; [done|].
  assert (Hin : Some row ∈ mat).
  { unfold slot in Hrow. case_bool_decide; [|done].
    by eapply list_elem_of_lookup_2. }
  rewrite Forall_forall in Hrows.
  destruct (Hrows _ Hin) as (vals & [= ->] & Hvals).
  exists (<[Z.to_nat j := x]> vals). split.
  - by rewrite list_fmap_insert.
  - by rewrite length_insert.
Qed.

Lemma grid_initialised {X : Type} (n m : Z) (x : X) :
  0 ≤ n → 0 ≤ m → initialised (grid n m x) n m.
Proof.
  intros Hn Hm. unfold initialised, grid. rewrite length_replicate.
  split; [lia|]. apply Forall_replicate.
  exists (replicate (Z.to_nat (m + 1)) x). split.
  - by rewrite fmap_replicate.
  - rewrite length_replicate. lia.
Qed.

Section fill_facts.
Context (t : BlosumPenaltyArray) (string1 string2 : list ascii).

Lemma blank_filled_before :
  filled_before t string1 string2 (1, 1)
    (blank (Z.of_nat (length string1)) (Z.of_nat (length string2)) t).
Proof.
  set (n := Z.of_nat (length string1)). set (m := Z.of_nat (length string2)).
  assert (H0 : ∀ i j, score_at (blank n m t) i j = 0).
  { intros i j. unfold score_at. simpl.
    destruct (load2 (grid n m 0) i j) as [|v] eqn:Hv; [done|].
    unfold grid, load2, load, slot in Hv.
    case_bool_decide; [|done].
    destruct (replicate _ _ !! Z.to_nat i) as [r|] eqn:Hr; [|done].
    apply lookup_replicate in Hr as [-> _].
    case_bool_decide; [|done].
    destruct (replicate _ _ !! Z.to_nat j) as [r|] eqn:Hr; [|done].
    apply lookup_replicate in Hr as [-> _]. by simplify_eq. }
  split_and!.
  - apply grid_initialised; lia.
  - apply grid_initialised; lia.
  - done.
  - intros. apply H0.
  - intros i j c1 c2 H1 H2 Hb.
    pose proof (slot_Some_range _ _ _ H1).
    pose proof (slot_Some_range _ _ _ H2).
    unfold before in Hb. simpl in Hb. lia.
Qed.

Lemma fill_cell_filled_before i j st st1 :
  1 ≤ i ≤ Z.of_nat (length string1) → 1 ≤ j ≤ Z.of_nat (length string2) →
  filled_before t string1 string2 (i, j) st →
  fill_cell string1 string2 i j st = Ok () st1 →
  filled_before t string1 string2 (i, j + 1) st1.
Proof.
  set (n := Z.of_nat (length string1)). set (m := Z.of_nat (length string2)).
  intros Hi Hj (Hd & Hb & Ht & H0 & Hcells) Hrun.
  fold n m in Hd, Hb.
  destruct (slot_lt string1 (i - 1)) as [c1 Hc1]; [lia|].
  destruct (slot_lt string2 (j - 1)) as [c2 Hc2]; [lia|].
  destruct (initialised_row _ _ _ i Hd) as (valsd & Hrowd & Hlend); [lia|].
  destruct (initialised_row _ _ _ i Hb) as (valsb & Hrowb & Hlenb); [lia|].
  assert (Hjd : is_Some (slot (Some <$> valsd) j)).
  { apply slot_lt. rewrite length_fmap. lia. }
  assert (Hjb : is_Some (slot (Some <$> valsb) j)).
  { apply slot_lt. rewrite length_fmap. lia. }
  rewrite (fill_cell_cases string1 string2 i j st c1 c2
             (score_at st (i - 1) j) (score_at st i (j - 1))
             (score_at st (i - 1) (j - 1)) (Some <$> valsd) (Some <$> valsb)
             Hc1 Hc2) in Hrun;
    [|by apply (score_at_load2 st n m); [done|lia|lia]..|done|done|done|done].
  rewrite !Ht in Hrun.
  case_decide as Hin; [|done]. destruct Hin as (Hup & Hleft & Hdiag).
  injection Hrun as <-.
  set (v := cell_score _ _ _) in *.
  assert (Hoff : ∀ i' j', i' ≠ i ∨ j' ≠ j →
            score_at (Mem
              (<[Z.to_nat i := Some (<[Z.to_nat j := Some v]> (Some <$> valsd))]>
                 (d st)) (b st) (bpa st)) i' j' = score_at st i' j').
  { intros i' j' Hne. unfold score_at. simpl.
    by rewrite (store2_agree_off _ _ _ _ _
                  (store2_row _ _ _ _ v Hrowd Hjd) i' j' Hne). }
  assert (Hat : score_at (Mem
              (<[Z.to_nat i := Some (<[Z.to_nat j := Some v]> (Some <$> valsd))]>
                 (d st)) (b st) (bpa st)) i j = v).
  { unfold score_at. simpl. by rewrite load2_stored. }
  unfold filled_before. fold n m. simpl. split_and!.
  - by apply initialised_insert.
  - by apply initialised_insert.
  - intros x y. by rewrite !penalty_get_penalty.
  - intros i' j' H. etrans; [|apply (H0 i' j' H)].
    apply (Hoff i' j'). lia.
  - intros i' j' c1' c2' H1 H2 Hbef.
    pose proof (slot_Some_range _ _ _ H1).
    pose proof (slot_Some_range _ _ _ H2).
    unfold before in Hbef. simpl in Hbef.
    change (score_at (Mem ?a ?b' ?c) ?x ?y)
      with (score_at (Mem a (b st) (bpa st)) x y).
    destruct (decide (i' = i ∧ j' = j)) as [[-> ->]|Hne].
    + assert (c1' = c1) as -> by congruence.
      assert (c2' = c2) as -> by congruence.
      rewrite Hat, !Hoff by lia. done.
    + assert (Hbef' : before (i', j') (i, j)) by (unfold before; simpl; lia).
      rewrite !Hoff by (unfold before in Hbef'; simpl in Hbef'; lia).
      by apply Hcells.
Qed.

Lemma fill_row_cells i (rest : list (Z * Z)) st1 : ∀ (len : nat) j st,
  1 ≤ i ≤ Z.of_nat (length string1) → 1 ≤ j →
  j + Z.of_nat len ≤ Z.of_nat (length string2) + 1 →
  filled_before t string1 string2 (i, j) st →
  fill_cells string1 string2 (row_cells i j len ++ rest) st = Ok () st1 →
  ∃ st2, filled_before t string1 string2 (i, j + Z.of_nat len) st2 ∧
         fill_cells string1 string2 rest st2 = Ok () st1.
Proof.
  induction len as [|len IH]; intros j st Hi Hj Hlen Hst Hrun.
  - exists st. by rewrite Z.add_0_r.
  - simpl in Hrun. unfold mbind at 1, M_bind at 1 in Hrun.
    destruct (fill_cell string1 string2 i j st) as [[] st'| |] eqn:Hcell;
      [|done..].
    apply fill_cell_filled_before in Hcell; [|lia|lia|done].
    destruct (IH (j + 1) st') as (st2 & Hst2 & Hrest); [lia..|done|done|].
    exists st2. split; [|done].
    by replace (j + Z.of_nat (S len)) with (j + 1 + Z.of_nat len) by lia.
Qed.

Lemma filled_before_next_row i st :
  filled_before t string1 string2 (i, Z.of_nat (length string2) + 1) st →
  filled_before t string1 string2 (i + 1, 1) st.
Proof.
  intros (Hd & Hb & Ht & H0 & Hcells). split_and!; [done..|].
  intros i' j' c1 c2 H1 H2 Hbef. apply Hcells; [done..|].
  pose proof (slot_Some_range _ _ _ H2).
  unfold before in *. simpl in *. lia.
Qed.

Lemma fill_cells_from st1 : ∀ (rows : nat) i st,
  1 ≤ i → i + Z.of_nat rows ≤ Z.of_nat (length string1) + 1 →
  filled_before t string1 string2 (i, 1) st →
  fill_cells string1 string2 (cells_from i rows (length string2)) st
    = Ok () st1 →
  filled_before t string1 string2 (i + Z.of_nat rows, 1) st1.
Proof.
  induction rows as [|rows IH]; intros i st Hi Hrows Hst Hrun.
  - simpl in Hrun. injection Hrun as <-. by rewrite Z.add_0_r.
  - simpl in Hrun.
    destruct (fill_row_cells i (cells_from (i + 1) rows (length string2)) st1
                (length string2) 1 st)
      as (st2 & Hst2 & Hrest); [lia|lia|lia|done|done|].
    replace (i + Z.of_nat (S rows)) with (i + 1 + Z.of_nat rows) by lia.
    apply (IH (i + 1) st2); [lia|lia| |done].
    apply filled_before_next_row. by rewrite Z.add_comm.
Qed.

(** The fill steps of all cells, row by row, on blank matrices. *)
Lemma fill_cells_filled st :
  fill_cells string1 string2 (cells (length string1) (length string2))
    (blank (Z.of_nat (length string1)) (Z.of_nat (length string2)) t)
    = Ok () st →
  filled_before t string1 string2 (Z.of_nat (length string1) + 1, 1) st.
Proof.
  intros Hrun. rewrite Z.add_comm.
  apply (fill_cells_from st (length string1) 1
           (blank (Z.of_nat (length string1)) (Z.of_nat (length string2)) t));
    [lia|lia|apply blank_filled_before|done].
Qed.

End fill_facts.

Lemma filled_row st (n m i : Z) :
  initialised (d st) n m → 0 ≤ i ≤ n →
  slot (d st) i = Some (Some (Some <$> row_of (score_at st) i m)).
Proof.
  intros Hd Hi.
  destruct (initialised_row _ _ _ i Hd Hi) as (vals & Hrow & Hlen).
  rewrite Hrow. do 3 f_equal. unfold row_of.
  apply list_eq. intros k. rewrite list_lookup_fmap.
  destruct (decide (k < Z.to_nat (m + 1))%nat) as [Hk|Hk].
  - rewrite lookup_seqZ_lt by lia. simpl.
    destruct (lookup_lt_is_Some_2 vals k) as [v Hv]; [lia|].
    rewrite Hv. f_equal. unfold score_at.
    rewrite (load2_row _ _ _ _ Hrow). unfold slot.
    rewrite bool_decide_eq_true_2 by lia.
    replace (Z.to_nat (0 + Z.of_nat k)) with k by lia. by rewrite Hv.
  - rewrite lookup_ge_None_2 by lia.
    by rewrite lookup_seqZ_ge by lia.
Qed.

(** The steps of the fill return, and leave [D] in [d], when [D] is [0] in
    row [0] and column [0] and holds in every other cell the score of three
    candidates that fit in [int]. *)
Section fill_runs.
Context (t : BlosumPenaltyArray) (string1 string2 : list ascii).
Context (D : Z → Z → Z).
Hypothesis D_edge : ∀ i j, i = 0 ∨ j = 0 → D i j = 0.
Hypothesis D_cell : ∀ i j c1 c2,
  slot string1 (i - 1) = Some c1 → slot string2 (j - 1) = Some c2 →
  in_int (D (i - 1) j + penalty t c1 "*") ∧
  in_int (D i (j - 1) + penalty t "*" c2) ∧
  in_int (D (i - 1) (j - 1) + penalty t c1 c2) ∧
  D i j = cell_score (D (i - 1) j + penalty t c1 "*")
                     (D i (j - 1) + penalty t "*" c2)
                     (D (i - 1) (j - 1) + penalty t c1 c2).

Lemma blank_holds_before :
  holds_before t string1 string2 D (1, 1)
    (blank (Z.of_nat (length string1)) (Z.of_nat (length string2)) t).
Proof.
  destruct (blank_filled_before t string1 string2) as (Hd & Hb & Ht & H0 & _).
  split_and!; [done..|].
  intros i j Hi Hj Hc. unfold before in Hc. simpl in Hc.
  rewrite H0, D_edge by lia. done.
Qed.

Lemma fill_cell_holds_before i j st :
  1 ≤ i ≤ Z.of_nat (length string1) → 1 ≤ j ≤ Z.of_nat (length string2) →
  holds_before t string1 string2 D (i, j) st →
  ∃ st1, fill_cell string1 string2 i j st = Ok () st1 ∧
         holds_before t string1 string2 D (i, j + 1) st1.
Proof.
  set (n := Z.of_nat (length string1)). set (m := Z.of_nat (length string2)).
  intros Hi Hj (Hd & Hb & Ht & Hcells).
  fold n m in Hd, Hb, Hcells.
  destruct (slot_lt string1 (i - 1)) as [c1 Hc1]; [lia|].
  destruct (slot_lt string2 (j - 1)) as [c2 Hc2]; [lia|].
  destruct (initialised_row _ _ _ i Hd) as (valsd & Hrowd & Hlend); [lia|].
  destruct (initialised_row _ _ _ i Hb) as (valsb & Hrowb & Hlenb); [lia|].
  assert (Hjd : is_Some (slot (Some <$> valsd) j)).
  { apply slot_lt. rewrite length_fmap. lia. }
  assert (Hjb : is_Some (slot (Some <$> valsb) j)).
  { apply slot_lt. rewrite length_fmap. lia. }
  destruct (D_cell i j c1 c2 Hc1 Hc2) as (Hup & Hleft & Hdiag & HD).
  rewrite (fill_cell_cases string1 string2 i j st c1 c2
             (D (i - 1) j) (D i (j - 1)) (D (i - 1) (j - 1))
             (Some <$> valsd) (Some <$> valsb) Hc1 Hc2);
    [|rewrite <- Hcells by (unfold before; simpl; lia);
      by apply (score_at_load2 st n m); [done|lia|lia]..
     |done|done|done|done].
  rewrite !Ht, decide_True, <- HD by done.
  eexists. split; [done|].
  unfold holds_before. fold n m. simpl. split_and!.
  - by apply initialised_insert.
  - by apply initialised_insert.
  - intros x y. by rewrite !penalty_get_penalty.
  - intros i' j' Hi' Hj' Hc. unfold before in Hc. simpl in Hc.
    unfold score_at. simpl.
    destruct (decide (i' = i ∧ j' = j)) as [[-> ->]|Hne].
    + by rewrite load2_stored.
    + rewrite (store2_agree_off _ _ _ _ _
                 (store2_row _ _ _ _ (D i j) Hrowd Hjd) i' j') by lia.
      apply (Hcells i' j'); [done|done|]. unfold before. simpl. lia.
Qed.

Lemma fill_row_cells_run i (rest : list (Z * Z)) : ∀ (len : nat) j st,
  1 ≤ i ≤ Z.of_nat (length string1) → 1 ≤ j →
  j + Z.of_nat len ≤ Z.of_nat (length string2) + 1 →
  holds_before t string1 string2 D (i, j) st →
  ∃ st2, holds_before t string1 string2 D (i, j + Z.of_nat len) st2 ∧
         fill_cells string1 string2 (row_cells i j len ++ rest) st
           = fill_cells string1 string2 rest st2.
Proof.
  induction len as [|len IH]; intros j st Hi Hj Hlen Hst.
  - exists st. by rewrite Z.add_0_r.
  - destruct (fill_cell_holds_before i j st) as (st' & Hcell & Hst');
      [lia|lia|done|].
    destruct (IH (j + 1) st') as (st2 & Hst2 & Hrest); [lia..|done|].
    exists st2. split.
    + by replace (j + Z.of_nat (S len)) with (j + 1 + Z.of_nat len) by lia.
    + simpl. by erewrite bind_ok by exact Hcell.
Qed.

Lemma holds_before_next_row i st :
  holds_before t string1 string2 D (i, Z.of_nat (length string2) + 1) st →
  holds_before t string1 string2 D (i + 1, 1) st.
Proof.
  intros (Hd & Hb & Ht & Hcells). split_and!; [done..|].
  intros i' j' Hi' Hj' Hc. apply Hcells; [done..|].
  unfold before in *. simpl in *. lia.
Qed.

Lemma fill_cells_from_run : ∀ (rows : nat) i st,
  1 ≤ i → i + Z.of_nat rows ≤ Z.of_nat (length string1) + 1 →
  holds_before t string1 string2 D (i, 1) st →
  ∃ st1, fill_cells string1 string2 (cells_from i rows (length string2)) st
           = Ok () st1 ∧
         holds_before t string1 string2 D (i + Z.of_nat rows, 1) st1.
Proof.
  induction rows as [|rows IH]; intros i st Hi Hrows Hst.
  - exists st. by rewrite Z.add_0_r.
  - destruct (fill_row_cells_run i (cells_from (i + 1) rows (length string2))
                (length string2) 1 st)
      as (st2 & Hst2 & Hrest); [lia|lia|lia|done|].
    destruct (IH (i + 1) st2) as (st1 & Hrun & Hst1); [lia|lia| |].
    { apply holds_before_next_row. by rewrite Z.add_comm. }
    exists st1. split.
    + simpl. by rewrite Hrest.
    + by replace (i + Z.of_nat (S rows)) with (i + 1 + Z.of_nat rows) by lia.
Qed.

Lemma fill_cells_run :
  ∃ st,
    fill_cells string1 string2 (cells (length string1) (length string2))
      (blank (Z.of_nat (length string1)) (Z.of_nat (length string2)) t)
      = Ok () st ∧
    initialised (d st) (Z.of_nat (length string1)) (Z.of_nat (length string2)) ∧
    ∀ i j, 0 ≤ i ≤ Z.of_nat (length string1) →
           0 ≤ j ≤ Z.of_nat (length string2) → score_at st i j = D i j.
Proof.
  destruct (fill_cells_from_run (length string1) 1
              (blank (Z.of_nat (length string1)) (Z.of_nat (length string2)) t))
    as (st & Hrun & Hd & _ & _ & Hcells);
    [lia|lia|apply blank_holds_before|].
  exists st. split_and!; [done|done|].
  intros i j Hi Hj. apply Hcells; [done..|].
  unfold before. simpl. lia.
Qed.
End fill_runs.

(** * The properties of the specification *)

(** C1, as stated, fails: for ["AB"] against ["A"] with unit scores the
    fill steps leave the score 1 in cell (1,1), and the search returns 0,
    the largest score of row 2. *)
Lemma find_best_misses_interior_maximum :
  (fill_cell (str "AB") (str "A") 1 1;; fill_cell (str "AB") (str "A") 2 1)
    (blank 2 1 AB_scores) = Ok () filled_AB_A ∧
  find_best 3 2 1 filled_AB_A = Ok (0, 0) filled_AB_A ∧
  load2 (d filled_AB_A) 1 1 = inr 1.
Proof. split_and!; vm_compute; reflexivity. Qed.

(** C1, amended: on a score matrix whose row [best_i] holds the scores
    [vals], the search of lines 267-276 ends and returns the largest of [0]
    and the cells [1 .. m] of that row: it is not below [0] nor below any of
    these cells, and it is [0] or one of them. *)
Theorem find_best_scans_last_row fuel best_i m st (vals : list Z) :
  slot (d st) best_i = Some (Some (Some <$> vals)) →
  Z.of_nat (length vals) = m + 1 →
  (Z.to_nat m < fuel)%nat →
  ∃ best_j,
    find_best fuel best_i m st = Ok (row_best vals, best_j) st ∧
    0 ≤ row_best vals ∧
    (∀ j v, (1 ≤ j)%nat → vals !! j = Some v → v ≤ row_best vals) ∧
    (row_best vals = 0 ∨ ∃ j, (1 ≤ j)%nat ∧ vals !! j = Some (row_best vals)).
Proof.
  intros Hrow Hlen Hfuel.
  destruct (find_best_ok fuel best_i m st vals) as (bj & Hbj & _); [done..|].
  exists bj. split; [done|]. apply row_best_spec.
Qed.

Lemma find_best_scans_last_row_witness :
  ∃ best_j,
    find_best 3 2 1 filled_AB_A = Ok (row_best [0; 0], best_j) filled_AB_A ∧
    0 ≤ row_best [0; 0] ∧
    (∀ j v, (1 ≤ j)%nat → [0; 0] !! j = Some v → v ≤ row_best [0; 0]) ∧
    (row_best [0; 0] = 0 ∨
     ∃ j, (1 ≤ j)%nat ∧ [0; 0] !! j = Some (row_best [0; 0])).
Proof.
  apply (find_best_scans_last_row 3 2 1 filled_AB_A [0; 0]);
    [reflexivity | reflexivity | simpl; lia].
Defined.

(** C2: the claim does not hold of the code.  Whatever the sequences, the
    table, the value [i0] of the uninitialised counter and the fuel,
    [local_alignment] returns no result; with fuel for [n + 2] iterations
    the run ends in an access outside the array of row pointers ([i0] below
    [n + 2]: the allocation loop assigns [d[n+1]]) or through a row pointer
    that was never set (otherwise: no row is allocated). *)
Theorem local_alignment_never_returns fuel i0 string1 string2 st :
  is_ok (local_alignment fuel i0 string1 string2 st) = false ∧
  local_alignment (length string1 + 2 + fuel) i0 string1 string2 st =
    Fault (if bool_decide (i0 < Z.of_nat (length string1) + 2)
           then OutOfBounds else WildPointer).
Proof.
  split; [apply local_alignment_not_ok|apply local_alignment_fault; lia].
Qed.

(** C3, as stated, fails: for ["A"] against ["B"] with unit scores the
    three candidates of cell (1,1) are [-1], the stored score is [0], and
    the stored direction is ['d'], not ['?']. *)
Lemma fill_cell_keeps_direction_at_zero :
  ∃ st,
    fill_cell (str "A") (str "B") 1 1 (blank 1 1 AB_scores) = Ok () st ∧
    load2 (d st) 1 1 = inr 0 ∧
    load2 (b st) 1 1 = inr "d"%char.
Proof. eexists. split_and!; vm_compute; reflexivity. Qed.

(** C3, amended: one step of the fill on a cell [(i, j)] of the matrices
    whose three neighbours hold scores, with candidates [up], [left] and
    [diag] that fit in [int], stores [max(up, left, diag, 0)] in [d[i][j]]
    and the direction chosen by [pick] in [b[i][j]]; the direction is one
    of ['u'], ['l'], ['d'], also when the stored score is [0], and it is
    the direction of a largest candidate: ['u'] only if [up], ['l'] only if
    [left] and ['d'] only if [diag] is the largest of the three. *)
Theorem fill_cell_stores_clamped_maximum
    string1 string2 i j st c1 c2 xu xl xd :
  slot string1 (i - 1) = Some c1 →
  slot string2 (j - 1) = Some c2 →
  load2 (d st) (i - 1) j = inr xu →
  load2 (d st) i (j - 1) = inr xl →
  load2 (d st) (i - 1) (j - 1) = inr xd →
  writable (d st) i j →
  writable (b st) i j →
  let up := xu + penalty (bpa st) c1 "*" in
  let left := xl + penalty (bpa st) "*" c2 in
  let diag := xd + penalty (bpa st) c1 c2 in
  in_int up → in_int left → in_int diag →
  ∃ st',
    fill_cell string1 string2 i j st = Ok () st' ∧
    load2 (d st') i j = inr (Z.max (Z.max (Z.max up left) diag) 0) ∧
    load2 (b st') i j = inr (pick up left diag).1 ∧
    (pick up left diag).1 ∈ ["u"; "l"; "d"]%char ∧
    ((pick up left diag).1 = "u"%char → up = Z.max (Z.max up left) diag) ∧
    ((pick up left diag).1 = "l"%char → left = Z.max (Z.max up left) diag) ∧
    ((pick up left diag).1 = "d"%char → diag = Z.max (Z.max up left) diag).
Proof.
  intros Hc1 Hc2 Hu Hl Hd Hwd Hwb up left diag Hup Hleft Hdiag.
  destruct (fill_cell_ok string1 string2 i j st c1 c2 xu xl xd)
    as (st' & Hrun & Hd' & Hb' & _); [done..|].
  exists st'.
  split_and!; [done| |done|apply pick_direction|apply pick_largest..].
  by rewrite <- (pick_score up left diag).
Qed.

Lemma fill_cell_stores_clamped_maximum_witness :
  ∃ st',
    fill_cell (str "A") (str "B") 1 1 (blank 1 1 AB_scores) = Ok () st' ∧
    load2 (d st') 1 1 = inr (Z.max (Z.max (Z.max (0 + -1) (0 + -1)) (0 + -1)) 0) ∧
    load2 (b st') 1 1 = inr (pick (0 + -1) (0 + -1) (0 + -1)).1 ∧
    (pick (0 + -1) (0 + -1) (0 + -1)).1 ∈ ["u"; "l"; "d"]%char ∧
    ((pick (0 + -1) (0 + -1) (0 + -1)).1 = "u"%char →
       0 + -1 = Z.max (Z.max (0 + -1) (0 + -1)) (0 + -1)) ∧
    ((pick (0 + -1) (0 + -1) (0 + -1)).1 = "l"%char →
       0 + -1 = Z.max (Z.max (0 + -1) (0 + -1)) (0 + -1)) ∧
    ((pick (0 + -1) (0 + -1) (0 + -1)).1 = "d"%char →
       0 + -1 = Z.max (Z.max (0 + -1) (0 + -1)) (0 + -1)).
Proof.
  apply (fill_cell_stores_clamped_maximum (str "A") (str "B") 1 1
           (blank 1 1 AB_scores) "A" "B" 0 0 0);
    try reflexivity;
    try (eexists; split; [reflexivity|eexists; reflexivity]);
    vm_compute; split; discriminate.
Defined.

(** C4, as stated, fails: a lookup of a pair that was never set returns
    [0] and records the pair with penalty [0]. *)
Lemma get_penalty_unset_returns_zero :
  get_penalty ∅ "A" "B" = (0, {["A"%char := {["B"%char := 0]}]}).
Proof. vm_compute. reflexivity. Qed.

(** C4, amended: after any history of [set_penalty] and [get_penalty]
    calls on an empty table, [get_penalty c1 c2] returns the penalty of the
    most recent [set_penalty c1 c2 _]; the table then records the pair with
    the returned penalty and every other pair as before.  If the pair was
    never set, the call returns [0] and the table then records the pair
    with penalty [0]; a pair that no call of the history was on is not
    recorded before the lookup, so the lookup adds it. *)
Theorem get_penalty_most_recent_set (ops : list table_op) (c1 c2 : ascii) :
  fst (get_penalty (run_ops ops ∅) c1 c2) = default 0 (last_set c1 c2 ops) ∧
  entry (snd (get_penalty (run_ops ops ∅) c1 c2)) c1 c2
    = Some (default 0 (last_set c1 c2 ops)) ∧
  (∀ x y, x ≠ c1 ∨ y ≠ c2 →
     entry (snd (get_penalty (run_ops ops ∅) c1 c2)) x y
       = entry (run_ops ops ∅) x y) ∧
  (last_set c1 c2 ops = None →
     fst (get_penalty (run_ops ops ∅) c1 c2) = 0 ∧
     entry (snd (get_penalty (run_ops ops ∅) c1 c2)) c1 c2 = Some 0) ∧
  (Forall (λ o, ¬ touches c1 c2 o) ops →
     entry (run_ops ops ∅) c1 c2 = None).
Proof.
  assert (Hv : default 0 (entry (run_ops ops ∅) c1 c2)
               = default 0 (last_set c1 c2 ops)) by by rewrite run_ops_entry.
  assert (Hfst : fst (get_penalty (run_ops ops ∅) c1 c2)
                 = default 0 (last_set c1 c2 ops))
    by by rewrite get_penalty_value.
  assert (Hsnd : entry (snd (get_penalty (run_ops ops ∅) c1 c2)) c1 c2
                 = Some (default 0 (last_set c1 c2 ops))).
  { rewrite get_penalty_entry, decide_True by done. by rewrite Hv. }
  split_and!; [done|done| | |].
  - intros x y Hne. rewrite get_penalty_entry.
    apply decide_False. intros [-> ->]. by destruct Hne.
  - intros Hnone. rewrite Hfst, Hsnd, Hnone. done.
  - intros Hops. by rewrite (run_ops_untouched ops ∅ c1 c2 Hops).
Qed.

(** C5: the claim does not hold of the code: with an empty first or second
    sequence the function does not return either. *)
Theorem local_alignment_empty_never_returns fuel i0 (s : list ascii) st :
  value_of (local_alignment fuel i0 [] s st) = None ∧
  value_of (local_alignment fuel i0 s [] st) = None ∧
  local_alignment (2 + fuel) i0 [] s st =
    Fault (if bool_decide (i0 < 2) then OutOfBounds else WildPointer).
Proof.
  split_and!.
  - pose proof (local_alignment_not_ok fuel i0 [] s st) as H.
    by destruct (local_alignment fuel i0 [] s st).
  - pose proof (local_alignment_not_ok fuel i0 s [] st) as H.
    by destruct (local_alignment fuel i0 s [] st).
  - by rewrite local_alignment_fault by (simpl; lia).
Qed.

(** C6: the claim does not hold of the code: no run yields a score. *)
Theorem local_alignment_returns_no_score fuel i0 string1 string2 st :
  (λ r, r.1.1) <$> value_of (local_alignment fuel i0 string1 string2 st)
    = None.
Proof.
  pose proof (local_alignment_not_ok fuel i0 string1 string2 st) as H.
  by destruct (local_alignment fuel i0 string1 string2 st).
Qed.

(** C7: the claim does not hold of the code: no run yields the two
    aligned strings. *)
Theorem local_alignment_returns_no_strings fuel i0 string1 string2 st :
  (λ r, (r.1.2, r.2)) <$> value_of (local_alignment fuel i0 string1 string2 st)
    = None.
Proof.
  pose proof (local_alignment_not_ok fuel i0 string1 string2 st) as H.
  by destruct (local_alignment fuel i0 string1 string2 st).
Qed.

(** C8, as stated, fails: the unit scores are symmetric, and the search
    returns [0] for ["AB"] against ["A"] and [1] for ["A"] against ["AB"]. *)
Lemma last_row_score_not_symmetric :
  symmetric AB_scores ∧
  (fill_cell (str "AB") (str "A") 1 1;; fill_cell (str "AB") (str "A") 2 1;;
   find_best 3 2 1) (blank 2 1 AB_scores) = Ok (0, 0) filled_AB_A ∧
  (fill_cell (str "A") (str "AB") 1 1;; fill_cell (str "A") (str "AB") 1 2;;
   find_best 3 1 2) (blank 1 2 AB_scores) = Ok (1, 1) filled_A_AB.
Proof.
  split; [apply unit_scores_symmetric|]. split; vm_compute; reflexivity.
Qed.

(** C8, amended: for a symmetric table, when the steps of the fill on all
    cells, row by row, return for [string1] against [string2], they return
    for [string2] against [string1] as well; the matrix [d] of the first
    run is the score matrix [D] ([0] in row [0] and column [0], and in
    every other cell the score that the step computes from its three
    neighbours), the matrix [d] of the second run is its transpose, and the
    search of lines 267-276 returns for [string1] against [string2] the
    largest of [0] and the cells [1 .. m] of the last row of [D], and for
    [string2] against [string1] the largest of [0] and the cells [1 .. n]
    of the last column of [D]. *)
Theorem fill_cells_transposed fuel t string1 string2 st :
  let n := Z.of_nat (length string1) in
  let m := Z.of_nat (length string2) in
  symmetric t →
  fill_cells string1 string2 (cells (length string1) (length string2))
    (blank n m t) = Ok () st →
  (length string1 < fuel)%nat → (length string2 < fuel)%nat →
  ∃ (st' : mem) (D : Z → Z → Z),
    fill_cells string2 string1 (cells (length string2) (length string1))
      (blank m n t) = Ok () st' ∧
    (∀ i j, 0 ≤ i ≤ n → 0 ≤ j ≤ m →
       load2 (d st) i j = inr (D i j) ∧ load2 (d st') j i = inr (D i j)) ∧
    (∀ i j, i = 0 ∨ j = 0 → D i j = 0) ∧
    (∀ i j c1 c2,
       slot string1 (i - 1) = Some c1 → slot string2 (j - 1) = Some c2 →
       D i j = Z.max (Z.max (Z.max (D (i - 1) j + penalty t c1 "*")
                                   (D i (j - 1) + penalty t "*" c2))
                            (D (i - 1) (j - 1) + penalty t c1 c2)) 0) ∧
    (∃ best_j,
       find_best fuel n m st = Ok (row_best (row_of D n m), best_j) st) ∧
    (∃ best_j,
       find_best fuel m n st' = Ok (row_best (column D n m), best_j) st').
Proof.
  intros n m Hsym Hrun Hfuel1 Hfuel2.
  apply fill_cells_filled in Hrun. fold n m in Hrun.
  destruct Hrun as (Hd & _ & _ & H0 & Hcell). fold n m in Hd.
  assert (Hcell' : ∀ i j c1 c2,
    slot string1 (i - 1) = Some c1 → slot string2 (j - 1) = Some c2 →
    in_int (score_at st (i - 1) j + penalty t c1 "*") ∧
    in_int (score_at st i (j - 1) + penalty t "*" c2) ∧
    in_int (score_at st (i - 1) (j - 1) + penalty t c1 c2) ∧
    score_at st i j =
      cell_score (score_at st (i - 1) j + penalty t c1 "*")
                 (score_at st i (j - 1) + penalty t "*" c2)
                 (score_at st (i - 1) (j - 1) + penalty t c1 c2)).
  { intros i j c1 c2 H1 H2. apply Hcell; [done..|].
    pose proof (slot_Some_range _ _ _ H1) as Hi. fold n in Hi.
    unfold before. simpl. lia. }
  destruct (fill_cells_run t string2 string1 (λ j i, score_at st i j))
    as (st' & Hrun' & Hd' & Htr).
  { intros j i Hji. apply H0. tauto. }
  { intros j i c2 c1 H2 H1. simpl.
    destruct (Hcell' i j c1 c2 H1 H2) as (Hup & Hleft & Hdiag & ->).
    rewrite (Hsym c2 "*"%char), (Hsym "*"%char c1), (Hsym c2 c1).
    split_and!; [done..|apply cell_score_swap]. }
  fold n m in Hrun', Hd', Htr. simpl in Htr.
  exists st', (score_at st). split_and!.
  - done.
  - intros i j Hi Hj. split; [by apply (score_at_load2 st n m)|].
    rewrite <- Htr by done. by apply (score_at_load2 st' m n).
  - done.
  - intros i j c1 c2 H1 H2.
    destruct (Hcell' i j c1 c2 H1 H2) as (_ & _ & _ & ->).
    unfold cell_score. by rewrite pick_score.
  - destruct (find_best_ok fuel n m st (row_of (score_at st) n m))
      as (bj & Hbj & _); [| |lia|by exists bj].
    + apply (filled_row st n m); [done|lia].
    + unfold row_of. rewrite length_fmap, length_seqZ. lia.
  - assert (Hvals : row_of (score_at st') m n = column (score_at st) n m).
    { unfold row_of, column. apply list_fmap_ext. intros k i Hk.
      apply lookup_seqZ in Hk. apply Htr; lia. }
    destruct (find_best_ok fuel m n st' (column (score_at st) n m))
      as (bj & Hbj & _); [| |lia|by exists bj].
    + rewrite <- Hvals. apply (filled_row st' m n); [done|lia].
    + unfold column. rewrite length_fmap, length_seqZ. lia.
Qed.

Lemma fill_cells_transposed_witness :
  ∃ (st' : mem) (D : Z → Z → Z),
    fill_cells (str "A") (str "AB") (cells 1 2) (blank 1 2 AB_scores)
      = Ok () st' ∧
    (∀ i j, 0 ≤ i ≤ 2 → 0 ≤ j ≤ 1 →
       load2 (d filled_AB_A) i j = inr (D i j) ∧
       load2 (d st') j i = inr (D i j)) ∧
    (∀ i j, i = 0 ∨ j = 0 → D i j = 0) ∧
    (∀ i j c1 c2,
       slot (str "AB") (i - 1) = Some c1 → slot (str "A") (j - 1) = Some c2 →
       D i j = Z.max (Z.max (Z.max (D (i - 1) j + penalty AB_scores c1 "*")
                                   (D i (j - 1) + penalty AB_scores "*" c2))
                            (D (i - 1) (j - 1) + penalty AB_scores c1 c2)) 0) ∧
    (∃ best_j,
       find_best 3 2 1 filled_AB_A
         = Ok (row_best (row_of D 2 1), best_j) filled_AB_A) ∧
    (∃ best_j,
       find_best 3 1 2 st' = Ok (row_best (column D 2 1), best_j) st').
Proof.
  apply (fill_cells_transposed 3 AB_scores (str "AB") (str "A") filled_AB_A).
  - apply unit_scores_symmetric.
  - vm_compute. reflexivity.
  - simpl. lia.
  - simpl. lia.
Defined.

(** C9, as stated, fails: on an empty table the three lookups of one fill
    step record three pairs. *)
Lemma fill_cell_extends_incomplete_table :
  ∃ st,
    fill_cell (str "A") (str "A") 1 1 (blank 1 1 ∅) = Ok () st ∧
    entry (bpa (blank 1 1 ∅)) "A" "*" = None ∧
    entry (bpa st) "A" "*" = Some 0 ∧
    entry (bpa st) "*" "A" = Some 0 ∧
    entry (bpa st) "A" "A" = Some 0.
Proof. eexists. split_and!; vm_compute; reflexivity. Qed.

(** C9, amended: a step of the fill changes the penalty of no pair, and it
    leaves the table identical when the three pairs it looks up are
    recorded in it.  A pair that the table records keeps its penalty; a
    pair that it does not record is recorded after the step, with penalty
    [0], exactly when it is one of the three pairs that the step looks up:
    [(c1, '*')], [('*', c2)] and [(c1, c2)]. *)
Theorem fill_cell_keeps_complete_table
    string1 string2 i j st c1 c2 xu xl xd :
  slot string1 (i - 1) = Some c1 →
  slot string2 (j - 1) = Some c2 →
  load2 (d st) (i - 1) j = inr xu →
  load2 (d st) i (j - 1) = inr xl →
  load2 (d st) (i - 1) (j - 1) = inr xd →
  writable (d st) i j →
  writable (b st) i j →
  in_int (xu + penalty (bpa st) c1 "*") →
  in_int (xl + penalty (bpa st) "*" c2) →
  in_int (xd + penalty (bpa st) c1 c2) →
  ∃ st',
    fill_cell string1 string2 i j st = Ok () st' ∧
    (∀ x y, penalty (bpa st') x y = penalty (bpa st) x y) ∧
    (is_Some (entry (bpa st) c1 "*") →
     is_Some (entry (bpa st) "*" c2) →
     is_Some (entry (bpa st) c1 c2) →
     bpa st' = bpa st) ∧
    (∀ x y,
       entry (bpa st') x y =
         match entry (bpa st) x y with
         | Some v => Some v
         | None =>
             if decide ((x = c1 ∧ y = "*"%char) ∨ (x = "*"%char ∧ y = c2) ∨
                        (x = c1 ∧ y = c2))
             then Some 0 else None
         end).
Proof.
  intros Hc1 Hc2 Hu Hl Hd Hwd Hwb Hup Hleft Hdiag.
  destruct (fill_cell_ok string1 string2 i j st c1 c2 xu xl xd)
    as (st' & Hrun & _ & _ & Hbpa); [done..|].
  exists st'. split; [done|]. rewrite Hbpa. split_and!.
  - intros x y. by rewrite !penalty_get_penalty.
  - intros [v1 H1] [v2 H2] [v3 H3].
    rewrite (get_penalty_defined _ _ _ _ H1). simpl.
    rewrite (get_penalty_defined _ _ _ _ H2). simpl.
    by rewrite (get_penalty_defined _ _ _ _ H3).
  - intros x y. apply three_lookups_entry.
Qed.

Lemma fill_cell_keeps_complete_table_witness :
  ∃ st',
    fill_cell (str "A") (str "B") 1 1
      (blank 1 1 (set_penalty ∅ "A" "B" (-1))) = Ok () st' ∧
    (∀ x y, penalty (bpa st') x y = penalty (set_penalty ∅ "A" "B" (-1)) x y) ∧
    (is_Some (entry (set_penalty ∅ "A" "B" (-1)) "A" "*") →
     is_Some (entry (set_penalty ∅ "A" "B" (-1)) "*" "B") →
     is_Some (entry (set_penalty ∅ "A" "B" (-1)) "A" "B") →
     bpa st' = set_penalty ∅ "A" "B" (-1)) ∧
    (∀ x y,
       entry (bpa st') x y =
         match entry (set_penalty ∅ "A" "B" (-1)) x y with
         | Some v => Some v
         | None =>
             if decide ((x = "A"%char ∧ y = "*"%char) ∨
                        (x = "*"%char ∧ y = "B"%char) ∨
                        (x = "A"%char ∧ y = "B"%char))
             then Some 0 else None
         end).
Proof.
  apply (fill_cell_keeps_complete_table (str "A") (str "B") 1 1
           (blank 1 1 (set_penalty ∅ "A" "B" (-1))) "A" "B" 0 0 0);
    try reflexivity;
    try (eexists; split; [reflexivity|eexists; reflexivity]);
    vm_compute; split; discriminate.
Defined.

(** C10: the direction that a step of the fill records in [b[i][j]] is
    the value of the function [pick] at the three candidates, so it is
    determined by them: it is ['d'] whenever [diag] equals the largest of
    the three candidates; it is ['l'] only if [left] exceeds both [up] and
    [diag], so ['u'] and not ['l'] is recorded on a tie of [left] and [up]
    above [diag]; and it is ['u'] only if [up] is not below [left] and
    exceeds [diag]. *)
Theorem fill_cell_tie_break string1 string2 i j st c1 c2 xu xl xd :
  slot string1 (i - 1) = Some c1 →
  slot string2 (j - 1) = Some c2 →
  load2 (d st) (i - 1) j = inr xu →
  load2 (d st) i (j - 1) = inr xl →
  load2 (d st) (i - 1) (j - 1) = inr xd →
  writable (d st) i j →
  writable (b st) i j →
  let up := xu + penalty (bpa st) c1 "*" in
  let left := xl + penalty (bpa st) "*" c2 in
  let diag := xd + penalty (bpa st) c1 c2 in
  in_int up → in_int left → in_int diag →
  ∃ st' dir,
    fill_cell string1 string2 i j st = Ok () st' ∧
    load2 (b st') i j = inr dir ∧
    dir = (pick up left diag).1 ∧
    (diag = Z.max (Z.max up left) diag → dir = "d"%char) ∧
    (dir = "l"%char → left > up ∧ left > diag) ∧
    (dir = "u"%char → up >= left ∧ up > diag) ∧
    (up = left → up > diag → dir = "u"%char).
Proof.
  intros Hc1 Hc2 Hu Hl Hd Hwd Hwb up left diag Hup Hleft Hdiag.
  destruct (fill_cell_ok string1 string2 i j st c1 c2 xu xl xd)
    as (st' & Hrun & _ & Hb' & _); [done..|].
  exists st', (pick up left diag).1.
  split_and!; [done|done|done|apply pick_order..].
Qed.

Lemma fill_cell_tie_break_witness :
  ∃ st' dir,
    fill_cell (str "AB") (str "A") 2 1 half_AB_A = Ok () st' ∧
    load2 (b st') 2 1 = inr dir ∧
    dir = (pick (1 + penalty AB_scores "B" "*") (0 + penalty AB_scores "*" "A")
                (0 + penalty AB_scores "B" "A")).1 ∧
    (0 + penalty AB_scores "B" "A" =
       Z.max (Z.max (1 + penalty AB_scores "B" "*")
                    (0 + penalty AB_scores "*" "A"))
             (0 + penalty AB_scores "B" "A") → dir = "d"%char) ∧
    (dir = "l"%char →
       0 + penalty AB_scores "*" "A" > 1 + penalty AB_scores "B" "*" ∧
       0 + penalty AB_scores "*" "A" > 0 + penalty AB_scores "B" "A") ∧
    (dir = "u"%char →
       1 + penalty AB_scores "B" "*" >= 0 + penalty AB_scores "*" "A" ∧
       1 + penalty AB_scores "B" "*" > 0 + penalty AB_scores "B" "A") ∧
    (1 + penalty AB_scores "B" "*" = 0 + penalty AB_scores "*" "A" →
       1 + penalty AB_scores "B" "*" > 0 + penalty AB_scores "B" "A" →
       dir = "u"%char).
Proof.
  apply (fill_cell_tie_break (str "AB") (str "A") 2 1 half_AB_A
           "B" "A" 1 0 0);
    try reflexivity;
    try (eexists; split; [reflexivity|eexists; reflexivity]);
    vm_compute; split; discriminate.
Defined.

(** * Further properties of the code *)

(** ** The table as a map *)

Lemma set_penalty_insert (t : BlosumPenaltyArray) (a b : ascii) (p : Z) :
  set_penalty t a b p = <[a := <[b := p]> (default ∅ (t !! a))]> t.
Proof.
  unfold set_penalty, subscript.
  destruct (t !! a) as [row|] eqn:Hrow; simpl.
  - destruct (row !! b); simpl; [done|]. by rewrite insert_insert_eq.
  - rewrite lookup_empty. simpl. by rewrite !insert_insert_eq.
Qed.

Lemma get_penalty_insert (t : BlosumPenaltyArray) (a b : ascii) :
  get_penalty t a b =
    (default 0 (entry t a b),
     <[a := <[b := default 0 (entry t a b)]> (default ∅ (t !! a))]> t).
Proof.
  unfold get_penalty, entry, subscript.
  destruct (t !! a) as [row|] eqn:Hrow; simpl.
  - destruct (row !! b) as [v|] eqn:Hv; simpl; [|done].
    by rewrite (insert_id row b v).
  - rewrite lookup_empty. simpl. by rewrite insert_insert_eq.
Qed.

(** X1: a lookup of a pair that was set returns the penalty it was set
    to, and leaves the table as [set_penalty] left it. *)
Theorem get_penalty_after_set (t : BlosumPenaltyArray) (a b : ascii) (p : Z) :
  get_penalty (set_penalty t a b p) a b = (p, set_penalty t a b p).
Proof.
  apply get_penalty_defined.
  rewrite set_penalty_entry. by rewrite decide_True.
Qed.

(** X2: setting a pair again replaces its penalty: the table is the one
    that the second [set_penalty] alone would have given. *)
Theorem set_penalty_overwrites (t : BlosumPenaltyArray) (a b : ascii) (p q : Z) :
  set_penalty (set_penalty t a b p) a b q = set_penalty t a b q.
Proof.
  rewrite !set_penalty_insert. rewrite lookup_insert_eq. simpl.
  by rewrite !insert_insert_eq.
Qed.

(** X3: [set_penalty] on two different pairs gives the same table in
    either order. *)
Theorem set_penalty_commutes (t : BlosumPenaltyArray) (a b c e : ascii)
    (p q : Z) :
  a ≠ c ∨ b ≠ e →
  set_penalty (set_penalty t a b p) c e q =
  set_penalty (set_penalty t c e q) a b p.
Proof.
  intros Hne. rewrite !set_penalty_insert.
  destruct (decide (a = c)) as [->|Hac].
  - destruct Hne as [?|Hbe]; [done|].
    rewrite !lookup_insert_eq. simpl. rewrite !insert_insert_eq.
    f_equal. by apply insert_insert_ne.
  - rewrite !lookup_insert_ne by done. by apply insert_insert_ne.
Qed.

Lemma set_penalty_commutes_witness :
  set_penalty (set_penalty ∅ "A" "B" 1) "A" "C" 2 =
  set_penalty (set_penalty ∅ "A" "C" 2) "A" "B" 1.
Proof. apply (set_penalty_commutes ∅ "A" "B" "A" "C" 1 2). right. discriminate. Defined.

(** X4: a lookup repeated returns the same penalty, and only the first
    of the two can change the table. *)
Theorem get_penalty_twice (t : BlosumPenaltyArray) (a b : ascii) :
  get_penalty (snd (get_penalty t a b)) a b = get_penalty t a b.
Proof.
  rewrite (surjective_pairing (get_penalty t a b)) at 2.
  rewrite get_penalty_value.
  apply get_penalty_defined. rewrite get_penalty_entry.
  by rewrite decide_True.
Qed.

(** X5: a lookup keeps every recorded pair with its penalty; the only pair
    it can add is the one looked up, with penalty [0]. *)
Theorem get_penalty_adds_only_zero (t : BlosumPenaltyArray) (a b x y : ascii) :
  entry (snd (get_penalty t a b)) x y =
    match entry t x y with
    | Some v => Some v
    | None => if decide (x = a ∧ y = b) then Some 0 else None
    end.
Proof.
  rewrite get_penalty_entry.
  case_decide as H; [destruct H as [-> ->]|]; by destruct (entry t _ _).
Qed.

(** ** Protein files *)

Lemma getlines_no_newline (t : list ascii) : ∀ lineBuffer,
  newline ∉ t → getlines lineBuffer t = [].
Proof.
  induction t as [|c t IH]; intros buf Ht; [done|]. simpl.
  apply not_elem_of_cons in Ht as [Hc Ht].
  rewrite bool_decide_eq_false_2 by done. by apply IH.
Qed.

Lemma getlines_app (s t : list ascii) : ∀ lineBuffer,
  newline ∉ t → getlines lineBuffer (s ++ t) = getlines lineBuffer s.
Proof.
  induction s as [|c s IH]; intros buf Ht; simpl.
  - by apply getlines_no_newline.
  - case_bool_decide; [f_equal|]; by apply IH.
Qed.

Lemma getlines_line (l s : list ascii) : ∀ lineBuffer,
  newline ∉ l →
  getlines lineBuffer (l ++ newline :: s) = (lineBuffer ++ l) :: getlines [] s.
Proof.
  induction l as [|c l IH]; intros buf Hl; simpl.
  - by rewrite app_nil_r.
  - apply not_elem_of_cons in Hl as [Hc Hl].
    rewrite bool_decide_eq_false_2 by done. rewrite IH by done.
    by rewrite <- app_assoc.
Qed.

Lemma getlines_line_app (l s : list ascii) (lineBuffer : list ascii) :
  newline ∉ l →
  getlines lineBuffer ((l ++ [newline]) ++ s) =
    (lineBuffer ++ l) :: getlines [] s.
Proof. intros Hl. rewrite <- app_assoc. by apply getlines_line. Qed.

Lemma load_line_ok st l :
  pending_ok st → ∃ st', load_line st l = inr st' ∧ pending_ok st'.
Proof.
  intros Hst. unfold load_line. destruct l as [|c rest]; [by eauto|].
  case_bool_decide; [eexists; split; [done|]; by intros _; eexists|].
  destruct (have_description st) eqn:Hd; [|by eauto].
  destruct (Hst Hd) as [p ->]. by eexists.
Qed.

Lemma load_lines_ok lines : ∀ st,
  pending_ok st → ∃ st', load_lines st lines = inr st' ∧ pending_ok st'.
Proof.
  induction lines as [|l lines IH]; intros st Hst; simpl; [by eauto|].
  destruct (load_line_ok st l Hst) as (st' & -> & Hst'). by apply IH.
Qed.

(** X6: whatever the file holds, [load_proteins] ends without going
    through the null [newProtein], returns [true] and prints nothing. *)
Theorem load_proteins_returns (content path : list ascii) (old : ProteinVector) :
  ∃ ps, load_proteins (Some content) path old = inr (true, ps, []).
Proof.
  unfold load_proteins.
  destruct (load_lines_ok (getlines [] content) (Loading [] None false))
    as (st & -> & _); [done|]. by eexists.
Qed.

Lemma getlines_fasta (ps : list Protein) :
  Forall storable ps →
  getlines [] (fasta ps) =
    concat ((λ p, [">"%char :: description p; sequence p]) <$> ps).
Proof.
  induction 1 as [|p ps (Hd & Hs & _) _ IH]; [done|].
  unfold fasta. rewrite fmap_cons, concat_cons. fold (fasta ps).
  unfold fasta_record.
  change (">"%char :: description p ++ [newline] ++ sequence p ++ [newline])
    with ((">"%char :: description p) ++ newline :: sequence p ++ [newline]).
  rewrite <- app_assoc. simpl app at 2.
  rewrite getlines_line; [|by intros [?|?]%elem_of_cons].
  rewrite <- app_assoc. simpl app at 3.
  rewrite getlines_line by done. by rewrite IH.
Qed.

Lemma load_lines_fasta (ps : list Protein) : ∀ st,
  Forall storable ps →
  ∃ st',
    load_lines st
      (concat ((λ p, [">"%char :: description p; sequence p]) <$> ps))
      = inr st' ∧
    proteins st' = proteins st ++ (Some <$> ps).
Proof.
  induction ps as [|p ps IH]; intros st Hps.
  - exists st. by rewrite app_nil_r.
  - apply Forall_cons in Hps as [(_ & _ & Hne & Hhd) Hps].
    destruct p as [desc seq]. simpl in *.
    destruct seq as [|c seq]; [done|].
    unfold load_line. simpl.
    rewrite bool_decide_eq_false_2 by (intros ->; done).
    destruct (IH (Loading (proteins st ++ [Some (Build_Protein desc (c :: seq))])
                    (Some (Build_Protein desc (c :: seq))) false) Hps)
      as (st' & Hrun & Hst').
    exists st'. split; [exact Hrun|]. rewrite Hst'. simpl.
    by rewrite <- app_assoc.
Qed.

(** X7: a file of records, one line [>description] and one line
    [sequence] for each protein, is loaded as the proteins it was made of,
    in their order. *)
Theorem load_proteins_fasta (ps : list Protein) (path : list ascii)
    (old : ProteinVector) :
  Forall storable ps →
  load_proteins (Some (fasta ps)) path old = inr (true, Some <$> ps, []).
Proof.
  intros Hps. unfold load_proteins. rewrite getlines_fasta by done.
  destruct (load_lines_fasta ps (Loading [] None false) Hps) as (st & -> & ->).
  done.
Qed.

Lemma load_proteins_fasta_witness :
  load_proteins
    (Some (fasta [Build_Protein (str "sp|P1") (str "HEAGAWGHEE");
                  Build_Protein (str "sp|P2") (str "PAWHEAE")]))
    (str "p.fasta") [None]
  = inr (true,
         Some <$> [Build_Protein (str "sp|P1") (str "HEAGAWGHEE");
                   Build_Protein (str "sp|P2") (str "PAWHEAE")], []).
Proof.
  apply (load_proteins_fasta
           [Build_Protein (str "sp|P1") (str "HEAGAWGHEE");
            Build_Protein (str "sp|P2") (str "PAWHEAE")]).
  repeat constructor; simpl; try discriminate;
    rewrite ?elem_of_cons, elem_of_nil; intros H; decompose [or] H;
    discriminate || done.
Defined.





(** X9: text behind the last newline of the file is not used: a last line
    that does not end in a newline is lost, and with it the protein whose
    sequence it holds. *)
Theorem load_proteins_unterminated (content last path : list ascii)
    (old : ProteinVector) :
  newline ∉ last →
  load_proteins (Some (content ++ last)) path old =
  load_proteins (Some content) path old.
Proof.
  intros Hlast. unfold load_proteins. by rewrite getlines_app.
Qed.

Lemma load_proteins_unterminated_witness :
  load_proteins (Some (str ">P1" ++ [newline] ++ str "HEAG")) [] [] =
  load_proteins (Some (str ">P1" ++ [newline])) [] [].
Proof.
  apply (load_proteins_unterminated (str ">P1" ++ [newline]) (str "HEAG")).
  apply (bool_decide_unpack _). vm_compute. exact I.
Defined.

Lemma save_loop_long (ps : list Protein) : ∀ written,
  Forall (λ p, (10 ≤ length (sequence p))%nat) ps →
  save_loop written (Some <$> ps) =
    (Returned true, written ++ concat (saved_record <$> ps)).
Proof.
  induction ps as [|p ps IH]; intros w Hps; simpl.
  - by rewrite app_nil_r.
  - apply Forall_cons in Hps as [Hp Hps]. unfold substr.
    rewrite bool_decide_eq_true_2 by done. rewrite IH by done.
    unfold saved_record. by rewrite <- !app_assoc.
Qed.

Lemma save_loop_short (ps : list Protein) : ∀ written,
  ¬ Forall (λ p, (10 ≤ length (sequence p))%nat) ps →
  (save_loop written (Some <$> ps)).1 = Faulted OutOfRange.
Proof.
  induction ps as [|p ps IH]; intros w Hps; simpl.
  - destruct Hps. constructor.
  - unfold substr. case_bool_decide as Hp; [|done].
    apply IH. intros Hall. apply Hps. by constructor.
Qed.

(** X10: [save_proteins] on a vector without null pointers returns [true]
    if every sequence has at least 10 characters; otherwise it ends in the
    [std::out_of_range] that [substr(10,10)] throws at the first shorter
    sequence. *)
Theorem save_proteins_ending (path : list ascii) (ps : list Protein) :
  (save_proteins true path (Some <$> ps)).1.1 =
    if decide (Forall (λ p, (10 ≤ length (sequence p))%nat) ps)
    then Returned true else Faulted OutOfRange.
Proof.
  unfold save_proteins. case_decide as Hps.
  - by rewrite save_loop_long.
  - pose proof (save_loop_short ps [] Hps) as H.
    by destruct (save_loop [] (Some <$> ps)).
Qed.

Lemma load_lines_no_header (lines : list (list ascii)) : ∀ st,
  Forall (λ l, head l ≠ Some ">"%char) lines →
  have_description st = false →
  load_lines st lines = inr st.
Proof.
  induction lines as [|l lines IH]; intros st Hl Hst; simpl; [done|].
  apply Forall_cons in Hl as [Hl Hlines].
  assert (load_line st l = inr st) as ->; [|by apply IH].
  unfold load_line. destruct l as [|c rest]; [done|].
  rewrite bool_decide_eq_false_2 by (intros ->; by apply Hl).
  by rewrite Hst.
Qed.

Lemma getlines_saved (ps : list Protein) :
  Forall plain ps →
  getlines [] (concat (saved_record <$> ps)) =
    concat ((λ p, [description p; take 10 (drop 10 (sequence p))]) <$> ps).
Proof.
  induction 1 as [|p ps (Hd & Hs & _) _ IH]; [done|].
  rewrite fmap_cons, concat_cons. unfold saved_record at 1.
  rewrite <- app_assoc. simpl app at 2.
  rewrite getlines_line by done.
  rewrite <- app_assoc. simpl app at 2.
  rewrite getlines_line; [by rewrite IH|].
  intros Hin. apply Hs. by eapply subseteq_drop, subseteq_take.
Qed.

(** X11: [load_proteins] does not read back what [save_proteins] wrote.
    For proteins with sequences of at least 10 characters, without
    newlines, whose descriptions do not begin with ['>'] (as
    [load_proteins] stores them, without the ['>'] of the file), the saved
    file is made of the lines [description] and [sequence.substr(10,10)]
    and holds no line that begins with ['>'], and loading it gives an
    empty vector. *)
Theorem load_after_save (path path' : list ascii) (ps : list Protein)
    (old : ProteinVector) :
  Forall (λ p, (10 ≤ length (sequence p))%nat) ps →
  Forall plain ps →
  ∃ cout,
    save_proteins true path (Some <$> ps) =
      (Returned true, Some (concat (saved_record <$> ps)), cout) ∧
    load_proteins (Some (concat (saved_record <$> ps))) path' old =
      inr (true, [], []).
Proof.
  intros Hlong Hplain. eexists. split.
  - unfold save_proteins. by rewrite save_loop_long.
  - unfold load_proteins. rewrite getlines_saved by done.
    rewrite load_lines_no_header; [done| |done].
    clear Hlong. induction Hplain as [|p ps (_ & _ & Hd & Hs) _ IH]; [done|].
    simpl. constructor; [done|]. constructor; [|done].
    destruct (drop 10 (sequence p)) as [|c rest] eqn:Hdrop; [done|].
    simpl. intros [= ->]. apply Hs.
    rewrite <- (Nat.add_0_r 10), <- lookup_drop. by rewrite Hdrop.
Qed.

Lemma load_after_save_witness :
  ∃ cout,
    save_proteins true (str "out") [Some (Build_Protein (str "sp|P1")
                                            (str "HEAGAWGHEEPAWHEAE"))] =
      (Returned true,
       Some (concat (saved_record <$>
               [Build_Protein (str "sp|P1") (str "HEAGAWGHEEPAWHEAE")])),
       cout) ∧
    load_proteins
      (Some (concat (saved_record <$>
               [Build_Protein (str "sp|P1") (str "HEAGAWGHEEPAWHEAE")])))
      (str "out") [] = inr (true, [], []).
Proof.
  apply (load_after_save (str "out") (str "out")
           [Build_Protein (str "sp|P1") (str "HEAGAWGHEEPAWHEAE")] []).
  - repeat constructor.
  - constructor; [|constructor].
    split_and!; try (apply (bool_decide_unpack _); vm_compute; exact I);
      discriminate.
Defined.

(** ** BLOSUM files *)

Lemma digit_char (k : Z) :
  0 ≤ k < 10 →
  let c := ascii_of_nat (Z.to_nat (48 + k)) in
  isdigit c = true ∧ digit_value c = k ∧ isspace c = false ∧
  c ≠ "-"%char ∧ c ≠ "+"%char ∧ c ≠ newline.
Proof.
  intros Hk.
  assert (k = 0 ∨ k = 1 ∨ k = 2 ∨ k = 3 ∨ k = 4 ∨ k = 5 ∨ k = 6 ∨ k = 7 ∨
          k = 8 ∨ k = 9) as Hcases by lia.
  repeat (destruct Hcases as [->|Hcases]); try subst k;
    vm_compute; split_and!; congruence.
Qed.

Lemma print_digits_digits (fuel : nat) : ∀ n rest,
  0 ≤ n < 2 ^ Z.of_nat fuel →
  digits 0 (print_digits fuel n ++ rest) = digits n rest.
Proof.
  induction fuel as [|fuel IH]; intros n rest Hn.
  { simpl in Hn. replace n with 0 by lia. done. }
  rewrite Nat2Z.inj_succ, Z.pow_succ_r in Hn by lia.
  assert (Hmod : 0 ≤ n mod 10 < 10) by (apply Z.mod_pos_bound; lia).
  destruct (digit_char (n mod 10) Hmod) as (Hd & Hv & _).
  simpl. case_bool_decide as Hsmall.
  - simpl. rewrite Hd, Hv. f_equal. rewrite Z.mod_small; lia.
  - rewrite <- app_assoc. rewrite IH.
    + simpl. rewrite Hd, Hv. f_equal.
      pose proof (Z.div_mod n 10). lia.
    + split; [apply Z.div_pos; lia|].
      apply Z.div_lt_upper_bound; lia.
Qed.

Lemma print_digits_head (fuel : nat) : ∀ n rest,
  0 ≤ n →
  ∃ c s, print_digits (S fuel) n ++ rest = c :: s ∧ isdigit c = true.
Proof.
  induction fuel as [|fuel IH]; intros n rest Hn.
  - assert (Hmod : 0 ≤ n mod 10 < 10) by (apply Z.mod_pos_bound; lia).
    destruct (digit_char (n mod 10) Hmod) as (Hd & _).
    simpl. case_bool_decide; simpl; eauto.
  - assert (Hmod : 0 ≤ n mod 10 < 10) by (apply Z.mod_pos_bound; lia).
    destruct (digit_char (n mod 10) Hmod) as (Hd & _).
    change (print_digits (S (S fuel)) n) with
      ((if bool_decide (n < 10) then [] else print_digits (S fuel) (n / 10)) ++
       [ascii_of_nat (Z.to_nat (48 + n mod 10))]).
    case_bool_decide; [simpl; eauto|].
    rewrite <- app_assoc. apply IH. apply Z.div_pos; lia.
Qed.

Lemma print_digits_no_newline (fuel : nat) : ∀ n,
  0 ≤ n → newline ∉ print_digits fuel n.
Proof.
  induction fuel as [|fuel IH]; intros n Hn; simpl; [apply not_elem_of_nil|].
  assert (Hmod : 0 ≤ n mod 10 < 10) by (apply Z.mod_pos_bound; lia).
  destruct (digit_char (n mod 10) Hmod) as (_ & _ & _ & _ & _ & Hnl).
  rewrite elem_of_app, elem_of_cons, elem_of_nil.
  intros [Hin|[Heq|[]]]; [|by apply Hnl].
  case_bool_decide; [by apply elem_of_nil in Hin|].
  revert Hin. apply IH. apply Z.div_pos; lia.
Qed.

Lemma log2_bound (n : Z) : 0 ≤ n → 0 ≤ n < 2 ^ Z.of_nat (S (Z.to_nat (Z.log2 n))).
Proof.
  intros Hn. split; [done|].
  rewrite Nat2Z.inj_succ, Z2Nat.id by apply Z.log2_nonneg.
  destruct (decide (n = 0)) as [->|H0]; [done|].
  apply Z.log2_spec. lia.
Qed.

(** A number printed in decimal, behind a blank, is extracted with its
    value when no digit follows it. *)
Lemma extract_int_print (v : Z) (rest : list ascii) :
  in_int v →
  (∀ c s, rest = c :: s → isdigit c = false) →
  extract_int (" "%char :: print_int v ++ rest) = Some (v, rest).
Proof.
  intros Hv Hrest. unfold extract_int.
  assert (Hend : ∀ n, digits n rest = (n, rest)).
  { intros n. destruct rest as [|c s]; [done|]. simpl.
    by rewrite (Hrest c s eq_refl). }
  change (skipws (" "%char :: print_int v ++ rest))
    with (skipws (print_int v ++ rest)).
  unfold print_int. case_bool_decide as Hneg.
  - remember (print_digits (S (Z.to_nat (Z.log2 (- v)))) (- v)) as pd eqn:Hpd.
    destruct (print_digits_head (Z.to_nat (Z.log2 (- v))) (- v) rest)
      as (c & s & Heq & Hc); [lia|].
    rewrite <- Hpd in Heq. simpl. rewrite Heq, Hc. rewrite <- Heq, Hpd.
    rewrite print_digits_digits by (apply log2_bound; lia).
    rewrite Hend. rewrite Z.opp_involutive.
    by rewrite bool_decide_eq_true_2.
  - remember (print_digits (S (Z.to_nat (Z.log2 v))) v) as pd eqn:Hpd.
    destruct (print_digits_head (Z.to_nat (Z.log2 v)) v rest)
      as (c & s & Heq & Hc); [lia|].
    rewrite <- Hpd in Heq. rewrite Heq.
    assert (Hsp : isspace c = false ∧ c ≠ "-"%char ∧ c ≠ "+"%char).
    { clear -Hc. unfold isdigit in Hc. apply bool_decide_eq_true in Hc.
      rewrite <- (ascii_nat_embedding c).
      remember (nat_of_ascii c) as k eqn:Hk. clear Hk.
      assert (k = 48 ∨ k = 49 ∨ k = 50 ∨ k = 51 ∨ k = 52 ∨ k = 53 ∨ k = 54 ∨
              k = 55 ∨ k = 56 ∨ k = 57)%nat as Hcases by lia.
      repeat (destruct Hcases as [->|Hcases]); try subst k;
        vm_compute; split_and!; congruence. }
    destruct Hsp as (Hs & Hm & Hp). simpl. rewrite Hs.
    rewrite !bool_decide_eq_false_2 by done. rewrite Hc. rewrite <- Heq, Hpd.
    rewrite print_digits_digits by (apply log2_bound; lia).
    rewrite Hend. by rewrite bool_decide_eq_true_2.
Qed.

Lemma row_loop_cells (r : ascii) (cs : list ascii) (vs : list Z) :
  ∀ fuel k t,
  Forall in_int vs → (length vs ≤ fuel)%nat → (k ≤ length cs)%nat →
  row_loop fuel r cs (concat ((λ v, " "%char :: print_int v) <$> vs)) k t =
    if decide (k + length vs ≤ length cs)%nat
    then inr (foldl (λ t cv, set_penalty t r cv.1 cv.2) t (zip (drop k cs) vs))
    else inl BadIndex.
Proof.
  induction vs as [|v vs IH]; intros fuel k t Hvs Hfuel Hk.
  - rewrite decide_True by (simpl; lia). rewrite zip_with_nil_r.
    by destruct fuel.
  - apply Forall_cons in Hvs as [Hv Hvs].
    destruct fuel as [|fuel]; [simpl in Hfuel; lia|].
    rewrite fmap_cons, concat_cons. cbn [row_loop].
    rewrite <- app_comm_cons, extract_int_print; [|done|].
    2:{ intros c s. destruct vs; [done|]. by intros [= <- _]. }
    destruct (cs !! k) as [c|] eqn:Hc.
    + apply lookup_lt_Some in Hc as Hlt.
      rewrite IH by (simpl in *; try done; lia).
      rewrite (drop_S cs c k Hc). simpl.
      repeat case_decide; try done; simpl in *; lia.
    + apply lookup_ge_None in Hc. rewrite decide_False; [done|]. simpl. lia.
Qed.

Lemma word_blank (s : list ascii) :
  (∀ c s', s = c :: s' → isspace c = true) → word s = ([], s).
Proof.
  intros Hs. destruct s as [|c s']; [done|]. simpl.
  by rewrite (Hs c s' eq_refl).
Qed.

Lemma header_loop_symbols (cs : list ascii) : ∀ fuel aas,
  Forall (λ c, isspace c = false) cs → (length cs ≤ fuel)%nat →
  header_loop fuel (concat ((λ c, [" "%char; c]) <$> cs)) aas = aas ++ cs.
Proof.
  induction cs as [|c cs IH]; intros fuel aas Hcs Hfuel.
  - rewrite app_nil_r. by destruct fuel.
  - apply Forall_cons in Hcs as [Hc Hcs].
    destruct fuel as [|fuel]; [simpl in Hfuel; lia|].
    rewrite fmap_cons, concat_cons. cbn [header_loop].
    unfold extract_word. simpl. rewrite Hc. simpl. rewrite Hc.
    rewrite word_blank.
    2:{ intros c' s'. destruct cs; [done|]. by intros [= <- _]. }
    simpl. rewrite IH by (simpl in *; try done; lia).
    by rewrite <- app_assoc.
Qed.

Lemma print_int_no_newline (v : Z) : newline ∉ print_int v.
Proof.
  unfold print_int. case_bool_decide.
  - apply not_elem_of_cons. split; [done|].
    apply print_digits_no_newline. lia.
  - apply print_digits_no_newline. lia.
Qed.

Lemma row_text_no_newline (vs : list Z) :
  newline ∉ concat ((λ v, " "%char :: print_int v) <$> vs).
Proof.
  induction vs as [|v vs IH]; [apply not_elem_of_nil|].
  rewrite fmap_cons, concat_cons, elem_of_app, elem_of_cons.
  intros [[?|?]|?]; [done| |done]. by eapply print_int_no_newline.
Qed.

Lemma header_text_no_newline (cs : list ascii) :
  Forall (λ c, isspace c = false) cs →
  newline ∉ concat ((λ c, [" "%char; c]) <$> cs).
Proof.
  induction 1 as [|c cs Hc _ IH]; [apply not_elem_of_nil|].
  rewrite fmap_cons, concat_cons, elem_of_app, !elem_of_cons, elem_of_nil.
  intros [[?|[<-|[]]]|?]; done.
Qed.

Lemma getlines_rows (rows : list (ascii * list Z)) (more : list ascii) :
  Forall row_ok rows →
  getlines [] (concat (blosum_row <$> rows) ++ more) =
    ((λ row, row.1 :: concat ((λ v, " "%char :: print_int v) <$> row.2))
       <$> rows) ++ getlines [] more.
Proof.
  induction 1 as [|[r vs] rows (_ & Hr & _) _ IH]; [done|].
  rewrite !fmap_cons, concat_cons, <- app_assoc.
  change (blosum_row (r, vs))
    with ((r :: concat ((λ v, " "%char :: print_int v) <$> vs)) ++ [newline]).
  rewrite getlines_line_app.
  - simpl. by rewrite IH.
  - apply not_elem_of_cons. split; [done|]. apply row_text_no_newline.
Qed.

Lemma getlines_blosum_file (cs : list ascii) (rows : list (ascii * list Z))
    (more : list ascii) :
  Forall (λ c, isspace c = false) cs → Forall row_ok rows →
  getlines [] (blosum_file cs rows ++ more) =
    ("$"%char :: concat ((λ c, [" "%char; c]) <$> cs)) ::
    ((λ row, row.1 :: concat ((λ v, " "%char :: print_int v) <$> row.2))
       <$> rows) ++ getlines [] more.
Proof.
  intros Hcs Hrows. unfold blosum_file. rewrite <- app_assoc.
  change (blosum_header cs)
    with (("$"%char :: concat ((λ c, [" "%char; c]) <$> cs)) ++ [newline]).
  rewrite getlines_line_app.
  - simpl. by rewrite getlines_rows.
  - apply not_elem_of_cons. split; [done|]. by apply header_text_no_newline.
Qed.

Lemma length_row_text (vs : list Z) :
  (length vs ≤ length (concat ((λ v, " "%char :: print_int v) <$> vs)))%nat.
Proof.
  induction vs as [|v vs IH]; [done|].
  rewrite fmap_cons, concat_cons, length_app. simpl. lia.
Qed.

Lemma length_header_text (cs : list ascii) :
  (length cs ≤ length (concat ((λ c, [" "%char; c]) <$> cs)))%nat.
Proof.
  induction cs as [|c cs IH]; [done|].
  rewrite fmap_cons, concat_cons, length_app. simpl. lia.
Qed.

Lemma blosum_lines_rows (cs : list ascii) (rows : list (ascii * list Z)) :
  ∀ t more,
  Forall row_ok rows →
  Forall (λ row, (length row.2 ≤ length cs)%nat) rows →
  blosum_lines (cs, t)
    (((λ row, row.1 :: concat ((λ v, " "%char :: print_int v) <$> row.2))
        <$> rows) ++ more)
  = blosum_lines (cs, foldl (set_cells cs) t rows) more.
Proof.
  induction rows as [|[r vs] rows IH]; intros t more Hok Hfit; [done|].
  apply Forall_cons in Hok as [(Hd & _ & Hvs) Hok].
  apply Forall_cons in Hfit as [Hlen Hfit]. simpl in *.
  rewrite bool_decide_eq_false_2 by done.
  rewrite row_loop_cells; [|done|apply length_row_text|lia].
  rewrite decide_True by (simpl; lia). by rewrite IH.
Qed.

(** X12: a matrix file made of a header line [$ c1 ... ck] and of rows
    [r v1 ... vn] with [n <= k] decimal numbers that fit in [int] is
    loaded: the call returns [true], prints nothing, and leaves the table
    that the calls [set_penalty(r, cj, vj)], row by row and left to right,
    give. *)
Theorem load_blosum_file_rows (cs : list ascii) (rows : list (ascii * list Z))
    (path : list ascii) (t : BlosumPenaltyArray) :
  Forall (λ c, isspace c = false) cs →
  Forall row_ok rows →
  Forall (λ row, (length row.2 ≤ length cs)%nat) rows →
  load_blosum_file (Some (blosum_file cs rows)) path t =
    inr (true, foldl (set_cells cs) t rows, []).
Proof.
  intros Hcs Hok Hfit. unfold load_blosum_file.
  rewrite <- (app_nil_r (blosum_file cs rows)).
  rewrite getlines_blosum_file by done.
  cbn [blosum_lines blosum_line]. rewrite bool_decide_eq_true_2 by done.
  rewrite header_loop_symbols; [|done|apply length_header_text].
  rewrite app_nil_l, blosum_lines_rows by done. done.
Qed.

Lemma load_blosum_file_rows_witness :
  load_blosum_file
    (Some (blosum_file (str "AB*")
             [("A"%char, [4; -2; -4]); ("B"%char, [-2; 5])]))
    (str "blosum.txt") ∅ =
  inr (true,
       foldl (set_cells (str "AB*")) ∅
         [("A"%char, [4; -2; -4]); ("B"%char, [-2; 5])], []).
Proof.
  apply (load_blosum_file_rows (str "AB*")
           [("A"%char, [4; -2; -4]); ("B"%char, [-2; 5])]).
  - repeat constructor.
  - repeat constructor; simpl; try discriminate; vm_compute; discriminate.
  - repeat constructor; simpl; lia.
Defined.

Lemma set_cells_other_row (cs : list ascii) (r : ascii) (vs : list Z)
    (x y : ascii) : ∀ t,
  x ≠ r → entry (set_cells cs t (r, vs)) x y = entry t x y.
Proof.
  unfold set_cells. simpl. revert vs.
  induction cs as [|c cs IH]; intros vs t Hx; [done|].
  destruct vs as [|v vs]; [done|]. simpl.
  rewrite IH by done. rewrite set_penalty_entry.
  by rewrite decide_False by (intros [? _]; done).
Qed.

Lemma set_cells_other_column (cs : list ascii) (r : ascii) (vs : list Z)
    (y : ascii) : ∀ t,
  y ∉ cs → entry (set_cells cs t (r, vs)) r y = entry t r y.
Proof.
  unfold set_cells. simpl. revert vs.
  induction cs as [|c cs IH]; intros vs t Hy; [done|].
  destruct vs as [|v vs]; [done|]. simpl.
  apply not_elem_of_cons in Hy as [Hyc Hy].
  rewrite IH by done. rewrite set_penalty_entry.
  by rewrite decide_False by (intros [_ ?]; done).
Qed.

Lemma set_cells_cell (cs : list ascii) (r : ascii) : ∀ (vs : list Z) t j c v,
  NoDup cs → cs !! j = Some c → vs !! j = Some v →
  entry (set_cells cs t (r, vs)) r c = Some v.
Proof.
  induction cs as [|c0 cs IH]; intros vs t j c v Hnd Hc Hv; [done|].
  destruct vs as [|v0 vs]; [done|].
  apply NoDup_cons in Hnd as [Hc0 Hnd].
  destruct j as [|j]; simpl in Hc, Hv; simplify_eq.
  - change (set_cells (c :: cs) t (r, v :: vs))
      with (set_cells cs (set_penalty t r c v) (r, vs)).
    rewrite set_cells_other_column by done.
    rewrite set_penalty_entry. by rewrite decide_True.
  - change (set_cells (c0 :: cs) t (r, v0 :: vs))
      with (set_cells cs (set_penalty t r c0 v0) (r, vs)).
    by eapply IH.
Qed.

Lemma set_rows_other_row (cs : list ascii) (rows : list (ascii * list Z))
    (x y : ascii) : ∀ t,
  x ∉ rows.*1 → entry (foldl (set_cells cs) t rows) x y = entry t x y.
Proof.
  induction rows as [|[r vs] rows IH]; intros t Hx; [done|].
  simpl in *. apply not_elem_of_cons in Hx as [Hxr Hx].
  rewrite IH by done. by apply set_cells_other_row.
Qed.

Lemma set_rows_cell (cs : list ascii) (rows : list (ascii * list Z)) :
  ∀ t i j r vs c v,
  NoDup cs → NoDup rows.*1 →
  rows !! i = Some (r, vs) → cs !! j = Some c → vs !! j = Some v →
  entry (foldl (set_cells cs) t rows) r c = Some v.
Proof.
  induction rows as [|[r0 vs0] rows IH]; intros t i j r vs c v Hcs Hrows Hi Hc Hv;
    [done|].
  simpl in Hrows. apply NoDup_cons in Hrows as [Hr0 Hrows].
  destruct i as [|i]; simpl in Hi; simplify_eq.
  - simpl. rewrite set_rows_other_row by done. by eapply set_cells_cell.
  - simpl. by eapply IH.
Qed.

(** X13: after such a file is loaded, with symbols that differ from one
    another in the header and in the rows, [get_penalty(r, c)] returns
    the number that the row of [r] holds in the column of [c], and the
    lookup leaves the table as it is. *)
Theorem load_blosum_file_lookup (cs : list ascii)
    (rows : list (ascii * list Z)) (path : list ascii)
    (t : BlosumPenaltyArray) (i j : nat) (r c : ascii) (vs : list Z) (v : Z) :
  Forall (λ c, isspace c = false) cs →
  Forall row_ok rows →
  Forall (λ row, (length row.2 ≤ length cs)%nat) rows →
  NoDup cs → NoDup rows.*1 →
  rows !! i = Some (r, vs) → cs !! j = Some c → vs !! j = Some v →
  ∃ t',
    load_blosum_file (Some (blosum_file cs rows)) path t = inr (true, t', []) ∧
    get_penalty t' r c = (v, t').
Proof.
  intros Hcs Hok Hfit Hnd Hndr Hi Hc Hv. eexists. split.
  - by apply load_blosum_file_rows.
  - apply get_penalty_defined. by eapply set_rows_cell.
Qed.

Lemma load_blosum_file_lookup_witness :
  ∃ t',
    load_blosum_file
      (Some (blosum_file (str "AB*")
               [("A"%char, [4; -2; -4]); ("B"%char, [-2; 5])]))
      (str "blosum.txt") ∅ = inr (true, t', []) ∧
    get_penalty t' "B" "B" = (5, t').
Proof.
  apply (load_blosum_file_lookup (str "AB*")
           [("A"%char, [4; -2; -4]); ("B"%char, [-2; 5])]
           (str "blosum.txt") ∅ 1 1 "B" "B" [-2; 5] 5); try reflexivity.
  - repeat constructor.
  - repeat constructor; simpl; try discriminate; vm_compute; discriminate.
  - repeat constructor; simpl; lia.
  - apply (bool_decide_unpack _). vm_compute. exact I.
  - apply (bool_decide_unpack _). vm_compute. exact I.
Defined.

(** ** The loops of [local_alignment] *)

(** A loop whose body keeps an invariant and the state, and lowers a
    measure, ends with the invariant. *)
Lemma while_invariant {S : Type} (I : S → Prop) (μ : S → nat)
    (cond : S → bool) (body : S → M S) (st : mem) :
  (∀ s, I s → cond s = true →
        ∃ s', body s st = Ok s' st ∧ I s' ∧ (μ s' < μ s)%nat) →
  ∀ fuel s, I s → (μ s < fuel)%nat →
  ∃ s', while_ fuel cond body s st = Ok s' st ∧ I s' ∧ cond s' = false.
Proof.
  intros Hbody. induction fuel as [|fuel IH]; intros s Hs Hfuel; [lia|].
  simpl. destruct (cond s) eqn:Hc; [|by eauto].
  destruct (Hbody s Hs Hc) as (s' & Hrun & Hs' & Hμ).
  erewrite bind_ok by exact Hrun. apply IH; [done|lia].
Qed.

Lemma store2_allocated {X : Type} (mat : matrix X) (n m i j : Z) (x : X) :
  allocated mat n m → 0 ≤ i ≤ n → 0 ≤ j ≤ m →
  ∃ mat', store2 mat i j x = inr mat' ∧ allocated mat' n m.
Proof.
  intros [Hlen Hrows] Hi Hj.
  destruct (slot_lt mat i) as [r Hr]; [lia|].
  assert (Hin : r ∈ mat).
  { unfold slot in Hr. case_bool_decide; [|done].
    by eapply list_elem_of_lookup_2. }
  rewrite Forall_forall in Hrows. destruct (Hrows r Hin) as (row & -> & Hrow).
  destruct (store2_writable mat i j x) as (row' & Hrow' & _ & ->).
  { exists row. split; [done|]. apply slot_lt. lia. }
  rewrite Hr in Hrow'. simplify_eq. eexists. split; [done|].
  split; [by rewrite length_insert|].
  apply Forall_insert; [by apply Forall_forall|].
  eexists. split; [done|]. by rewrite length_insert.
Qed.

(** X16: on matrices with all rows allocated, the initialisation of lines
    218-225 sets column [0] of the rows [0 .. n] and then indexes row
    [n + 1]: its inner loop advances [i], not [j]. *)
Theorem init_matrices_out_of_bounds (fuel : nat) (n m : nat) (st : mem) :
  allocated (d st) (Z.of_nat n) (Z.of_nat m) →
  allocated (b st) (Z.of_nat n) (Z.of_nat m) →
  init_matrices (n + 2 + fuel) (Z.of_nat n) (Z.of_nat m) st
    = Fault OutOfBounds.
Proof.
  intros Hd Hb. unfold init_matrices. apply bind_fault.
  replace (n + 2 + fuel)%nat with (S (n + 1 + fuel)) by lia.
  cbn [while_]. rewrite bool_decide_eq_true_2 by lia.
  do 2 apply bind_fault. unfold init_row. apply bind_fault.
  assert (Hloop : ∀ k i st,
    allocated (d st) (Z.of_nat n) (Z.of_nat m) →
    allocated (b st) (Z.of_nat n) (Z.of_nat m) →
    0 ≤ i ≤ Z.of_nat n + 1 → (Z.to_nat (Z.of_nat n + 1 - i) < k)%nat →
    while_ k (λ '(_, j), bool_decide (j < Z.of_nat m + 1))
      (λ '(i, j), write_d i j 0;; write_b i j "?"%char;; mret (i + 1, j))
      (i, 0) st = Fault OutOfBounds).
  { clear. induction k as [|k IH]; intros i st Hd Hb Hi Hk; [lia|].
    cbn [while_]. rewrite bool_decide_eq_true_2 by lia.
    destruct (decide (i = Z.of_nat n + 1)) as [->|Hne].
    - do 2 apply bind_fault. unfold write_d, store2, load.
      rewrite slot_out; [done|]. destruct Hd as [Hlen _]. lia.
    - destruct (store2_allocated (d st) (Z.of_nat n) (Z.of_nat m) i 0 0)
        as (d' & Hsd & Hd'); [done|lia|lia|].
      destruct (store2_allocated (b st) (Z.of_nat n) (Z.of_nat m) i 0 "?"%char)
        as (b' & Hsb & Hb'); [done|lia|lia|].
      unfold mbind at 1, M_bind at 1. unfold mbind at 1, M_bind at 1.
      unfold write_d at 1. rewrite Hsd.
      unfold mbind at 1, M_bind at 1. unfold write_b at 1. simpl. rewrite Hsb.
      unfold mret, M_ret. apply IH; simpl; [done|done|lia|lia]. }
  apply Hloop; [done|done|lia|lia].
Qed.

Lemma grid_allocated {X : Type} (n m : nat) (x : X) :
  allocated (grid (Z.of_nat n) (Z.of_nat m) x) (Z.of_nat n) (Z.of_nat m).
Proof.
  unfold allocated, grid. rewrite length_replicate. split; [lia|].
  apply Forall_replicate. eexists. split; [done|].
  rewrite length_replicate. lia.
Qed.

Lemma init_matrices_out_of_bounds_witness :
  init_matrices (2 + 2 + 0) (Z.of_nat 2) (Z.of_nat 1) (blank 2 1 ∅)
    = Fault OutOfBounds.
Proof.
  apply (init_matrices_out_of_bounds 0 2 1 (blank 2 1 ∅));
    apply (grid_allocated 2 1).
Defined.

(** X17: the fill of lines 226-266 returns exactly when one of the
    sequences is empty, and then it has changed nothing; with two
    sequences that are not empty its inner loop, which advances [i] and
    not [j], never ends normally. *)
Theorem fill_matrices_returns (fuel : nat) (string1 string2 : list ascii)
    (st : mem) :
  let n := Z.of_nat (length string1) in
  let m := Z.of_nat (length string2) in
  is_ok (fill_matrices fuel string1 string2 n m st) =
    bool_decide ((string1 = [] ∨ string2 = []) ∧ (length string1 < fuel)%nat) ∧
  (string1 = [] ∨ string2 = [] →
   fill_matrices (length string1 + 1 + fuel) string1 string2 n m st = Ok () st).
Proof.
  intros n m. split.
  - case_bool_decide as H.
    + destruct H as [Hempty Hfuel].
      by rewrite fill_matrices_empty by (done || lia).
    + destruct (decide (string1 = [] ∨ string2 = [])) as [Hempty|Hne].
      * assert (fuel ≤ length string1)%nat as Hfuel by (apply Nat.nlt_ge; tauto).
        clear H. unfold fill_matrices. apply bind_not_ok.
        destruct Hempty as [->| ->].
        { simpl in Hfuel. by replace fuel with 0%nat by lia. }
        subst m. simpl. clear -Hfuel.
        assert (Hloop : ∀ k i, 1 ≤ i → (k ≤ Z.to_nat (n + 1 - i))%nat →
                  (k ≤ fuel)%nat →
                  is_ok (while_ k (λ i, bool_decide (i < n + 1))
                    (λ i, i' ← fill_row fuel string1 [] 0 i; mret (i' + 1))
                    i st) = false).
        { induction k as [|k IH]; intros i Hi Hk Hkf; [done|].
          cbn [while_]. rewrite bool_decide_eq_true_2 by lia.
          destruct fuel as [|fuel']; [lia|]. unfold fill_row. simpl.
          unfold mbind, M_bind, mret, M_ret. simpl. apply IH; lia. }
        apply Hloop; subst n; lia.
      * apply fill_matrices_never_ok; subst n m;
          destruct string1, string2; simpl; try lia; tauto.
  - intros Hempty. apply fill_matrices_empty; [done|lia].
Qed.

(** X18: the search of lines 267-276 breaks ties towards the left: the
    column it returns is the first of the columns [1 .. m] of row [best_i]
    that holds the best score, and it is [0] when no cell of these is
    positive. *)
Theorem find_best_first_column (fuel : nat) (best_i m : Z) (st : mem)
    (vals : list Z) :
  slot (d st) best_i = Some (Some (Some <$> vals)) →
  Z.of_nat (length vals) = m + 1 →
  (Z.to_nat m < fuel)%nat →
  ∃ best_j,
    find_best fuel best_i m st = Ok (row_best vals, best_j) st ∧
    first_best vals (row_best vals) best_j.
Proof.
  intros Hrow Hlen Hfuel.
  destruct (find_best_ok fuel best_i m st vals) as (bj & Hrun & _); [done..|].
  set (I := λ s : Z * Z * Z,
    let '(j, bs, bj) := s in
    1 ≤ j ∧ 0 ≤ bs ∧
    (∀ k v, (1 ≤ k < Z.to_nat j)%nat → vals !! k = Some v → v ≤ bs) ∧
    first_best vals bs bj ∧ (bj < j)).
  destruct (while_invariant I (λ '(j, _, _), Z.to_nat (m + 1 - j))
              (λ '(j, _, _), bool_decide (j < m + 1))
              (λ '(j, best_score, best_j),
                 v ← read_d best_i j;
                 if bool_decide (v > best_score) then mret (j + 1, v, j)
                 else mret (j + 1, best_score, best_j)) st) with
    (fuel := fuel) (s := (1, 0, 0)) as ([[j' bs'] bj'] & Hloop & HI & _).
  - intros [[j bs] bj0] (Hj & Hbs & Hle & Hfirst & Hbj) Hcond.
    apply bool_decide_eq_true in Hcond.
    assert (Hv : is_Some (vals !! Z.to_nat j)) by (apply lookup_lt_is_Some; lia).
    destruct Hv as [v Hv].
    assert (Hload : load2 (d st) best_i j = inr v).
    { unfold load2, load. rewrite Hrow. unfold slot.
      rewrite bool_decide_eq_true_2 by lia.
      by rewrite list_lookup_fmap, Hv. }
    erewrite bind_ok by (by apply read_d_ok).
    case_bool_decide as Hgt; unfold mret, M_ret; eexists; (split; [done|]).
    + split; [|lia]. split_and!; [lia|lia| | |lia].
      * intros k w Hk Hw. destruct (decide (k = Z.to_nat j)) as [->|Hne].
        { rewrite Hv in Hw. simplify_eq. lia. }
        assert (w ≤ bs) by (eapply Hle; [|done]; lia). lia.
      * right. split_and!; [lia|lia|done|].
        intros k w Hk Hw. assert (w ≤ bs) by (eapply Hle; [|done]; lia). lia.
    + split; [|lia]. split_and!; [lia|lia| |done|lia].
      intros k w Hk Hw. destruct (decide (k = Z.to_nat j)) as [->|Hne].
      { rewrite Hv in Hw. simplify_eq. lia. }
      eapply Hle; [|done]. lia.
  - split_and!; [lia|lia| |by left|lia]. intros k v Hk. lia.
  - simpl. lia.
  - unfold find_best in Hrun. erewrite bind_ok in Hrun by exact Hloop.
    unfold mret, M_ret in Hrun. simplify_eq.
    exists bj. split; [|by destruct HI as (_ & _ & _ & ? & _)].
    unfold find_best. by erewrite bind_ok by exact Hloop.
Qed.

Lemma find_best_first_column_witness :
  ∃ best_j,
    find_best 3 1 2 filled_A_AB = Ok (row_best [0; 1; 0], best_j) filled_A_AB ∧
    first_best [0; 1; 0] (row_best [0; 1; 0]) best_j.
Proof.
  apply (find_best_first_column 3 1 2 filled_A_AB [0; 1; 0]);
    [reflexivity | reflexivity | simpl; lia].
Defined.

(** X19: the loops of lines 306-315 reverse the string they read. *)
Theorem reversed_reverses (fuel : nat) (s : list ascii) (st : mem) :
  reversed (S (length s) + fuel) s st = Ok (rev s) st.
Proof. apply reversed_ok. lia. Qed.

(** X20: a cell of the trace that holds none of ['u'], ['l'], ['d'],
    ['?'] stops the walk of lines 280-305 for good: no branch is taken,
    [done] stays [false], and the loop goes on without end. *)
Theorem traceback_stuck (fuel : nat) (string1 string2 : list ascii)
    (best_i best_j : Z) (c : ascii) (st : mem) :
  load2 (b st) best_i best_j = inr c →
  c ∉ ["u"; "l"; "d"; "?"]%char →
  traceback fuel string1 string2 best_i best_j st = OutOfFuel.
Proof.
  intros Hc Hnot. unfold traceback.
  assert (Hloop : ∀ k ms1 ms2,
            while_ k (λ w, negb (done w)) (traceback_step string1 string2)
              (Walk best_i best_j ms1 ms2 false) st = OutOfFuel).
  { induction k as [|k IH]; intros ms1 ms2; [done|].
    cbn [while_ done negb]. unfold traceback_step.
    unfold mbind at 1, M_bind at 1.
    erewrite bind_ok by (by apply read_b_ok).
    rewrite !elem_of_cons, elem_of_nil in Hnot.
    rewrite !bool_decide_eq_false_2 by tauto.
    unfold mret, M_ret. apply IH. }
  unfold mbind, M_bind. by rewrite Hloop.
Qed.

Lemma traceback_stuck_witness :
  traceback 5 (str "A") (str "A") 1 1 (Mem (grid 1 1 0) (grid 1 1 "x"%char) ∅)
    = OutOfFuel.
Proof.
  apply (traceback_stuck 5 (str "A") (str "A") 1 1 "x"
           (Mem (grid 1 1 0) (grid 1 1 "x"%char) ∅)).
  - reflexivity.
  - apply (bool_decide_unpack _). vm_compute. exact I.
Defined.

(** ** One step of the fill writes one cell *)

Section writes_only_facts.
Context (i j : Z).

Lemma writes_only_bind {A B : Type} (c : M A) (f : A → M B) :
  writes_only i j c → (∀ a, writes_only i j (f a)) →
  writes_only i j (c ≫= f).
Proof.
  intros Hc Hf st y st''. unfold mbind, M_bind.
  destruct (c st) as [a st'| |] eqn:Hrun; [|done..]. intros Hrun'.
  destruct (Hc st a st' Hrun) as [Hd Hb].
  destruct (Hf a st' y st'' Hrun') as [Hd' Hb'].
  split; intros i' j' Hne; [rewrite Hd'|rewrite Hb']; auto.
Qed.

Lemma writes_only_same {A : Type} (c : M A) :
  (∀ st a st', c st = Ok a st' → d st' = d st ∧ b st' = b st) →
  writes_only i j c.
Proof.
  intros Hc st a st' Hrun. destruct (Hc st a st' Hrun) as [-> ->].
  by split.
Qed.

Lemma writes_only_ret {A : Type} (a : A) : writes_only i j (mret a).
Proof. apply writes_only_same. by intros st a' st' [= _ <-]. Qed.

Lemma writes_only_read_d (i' j' : Z) : writes_only i j (read_d i' j').
Proof.
  apply writes_only_same. intros st a st'. unfold read_d, lift.
  destruct (load2 _ _ _); [done|]. by intros [= _ <-].
Qed.

Lemma writes_only_str_at (s : list ascii) (k : Z) : writes_only i j (str_at s k).
Proof.
  apply writes_only_same. intros st a st'. unfold str_at.
  destruct (slot s k); [by intros [= _ <-]|].
  case_bool_decide; [by intros [= _ <-]|done].
Qed.

Lemma writes_only_int_add (x y : Z) : writes_only i j (int_add x y).
Proof.
  apply writes_only_same. intros st a st'. unfold int_add.
  case_bool_decide; [by intros [= _ <-]|done].
Qed.

Lemma writes_only_get_penalty (c1 c2 : ascii) :
  writes_only i j (bpa_get_penalty c1 c2).
Proof.
  apply writes_only_same. intros st a st'. unfold bpa_get_penalty.
  destruct (get_penalty _ _ _). by intros [= _ <-].
Qed.

Lemma writes_only_write_d (v : Z) : writes_only i j (write_d i j v).
Proof.
  intros st a st'. unfold write_d.
  destruct (store2 (d st) i j v) as [|d'] eqn:Hs; [done|]. intros [= _ <-].
  simpl. split; [by eapply store2_agree_off|done].
Qed.

Lemma writes_only_write_b (c : ascii) : writes_only i j (write_b i j c).
Proof.
  intros st a st'. unfold write_b.
  destruct (store2 (b st) i j c) as [|b'] eqn:Hs; [done|]. intros [= _ <-].
  simpl. split; [done|by eapply store2_agree_off].
Qed.
End writes_only_facts.

(** X21: a step of the fill on cell [(i, j)] that returns has written no
    other cell: [d] and [b] hold what they held everywhere else. *)
Theorem fill_cell_writes_one_cell (string1 string2 : list ascii) (i j : Z)
    (st st' : mem) :
  fill_cell string1 string2 i j st = Ok () st' →
  agree_off i j (d st) (d st') ∧ agree_off i j (b st) (b st').
Proof.
  revert st st'.
  assert (H : writes_only i j (fill_cell string1 string2 i j)).
  { unfold fill_cell.
    repeat (apply writes_only_bind;
            [first [apply writes_only_read_d | apply writes_only_str_at
                   | apply writes_only_int_add | apply writes_only_get_penalty]
            |intros ?]).
    destruct (pick _ _ _) as [dir best].
    apply writes_only_bind; [apply writes_only_write_b|intros _].
    apply writes_only_bind; [apply writes_only_write_d|intros _].
    apply writes_only_bind; [apply writes_only_read_d|intros v].
    case_bool_decide; [apply writes_only_write_d|apply writes_only_ret]. }
  intros st st' Hrun. exact (H st () st' Hrun).
Qed.

Lemma fill_cell_writes_one_cell_witness :
  agree_off 1 1 (d (blank 2 1 AB_scores)) (d half_AB_A) ∧
  agree_off 1 1 (b (blank 2 1 AB_scores)) (b half_AB_A).
Proof.
  apply (fill_cell_writes_one_cell (str "AB") (str "A") 1 1
           (blank 2 1 AB_scores) half_AB_A).
  vm_compute. reflexivity.
Defined.

(** ** What the walk reads off *)

Lemma piece_empty (s : list ascii) (i : Z) : piece s i i = [].
Proof. unfold piece. by rewrite Z.sub_diag. Qed.

Lemma piece_snoc (s : list ascii) (from to : Z) (x : ascii) :
  0 ≤ from ≤ to - 1 → slot s (to - 1) = Some x →
  piece s from to = piece s from (to - 1) ++ [x].
Proof.
  intros Hft Hx. unfold piece.
  replace (Z.to_nat (to - from)) with (S (Z.to_nat (to - 1 - from))) by lia.
  apply take_S_r. rewrite lookup_drop.
  unfold slot in Hx. rewrite bool_decide_eq_true_2 in Hx by lia.
  by replace (Z.to_nat from + Z.to_nat (to - 1 - from))%nat
    with (Z.to_nat (to - 1)) by lia.
Qed.

Lemma slot_elem_of (s : list ascii) (k : Z) (x : ascii) :
  slot s k = Some x → x ∈ s.
Proof.
  unfold slot. case_bool_decide; [|done]. apply list_elem_of_lookup_2.
Qed.

Lemma ungap_cons_symbol (x : ascii) (l : list ascii) :
  x ≠ GAP → ungap (x :: l) = x :: ungap l.
Proof. intros Hx. unfold ungap. by rewrite filter_cons_True. Qed.

Lemma ungap_cons_gap (l : list ascii) : ungap (GAP :: l) = ungap l.
Proof. unfold ungap. rewrite filter_cons_False; [done|]. by intros H. Qed.

Lemma ungap_rev (l : list ascii) : ungap (rev l) = rev (ungap l).
Proof.
  unfold ungap. induction l as [|c l IH]; [done|]. simpl.
  rewrite filter_app, IH. rewrite !filter_cons, filter_nil.
  case_decide; [done|]. by rewrite app_nil_r.
Qed.

Lemma traceback_loop_pieces string1 string2 st fuel : ∀ i j ms1 ms2,
  trace_matrix (b st) (Z.of_nat (length string1)) (Z.of_nat (length string2)) →
  GAP ∉ string1 → GAP ∉ string2 →
  0 ≤ i ≤ Z.of_nat (length string1) →
  0 ≤ j ≤ Z.of_nat (length string2) →
  (Z.to_nat (i + j) + 2 ≤ fuel)%nat →
  ∃ w new1 new2,
    while_ fuel (λ w, negb (done w)) (traceback_step string1 string2)
      (Walk i j ms1 ms2 false) st = Ok w st ∧
    matchString1 w = ms1 ++ new1 ∧ matchString2 w = ms2 ++ new2 ∧
    0 ≤ wi w ≤ i ∧ 0 ≤ wj w ≤ j ∧
    ungap new1 = rev (piece string1 (wi w) i) ∧
    ungap new2 = rev (piece string2 (wj w) j).
Proof.
  induction fuel as [|fuel IH]; intros i j ms1 ms2 Hb Hg1 Hg2 Hi Hj Hfuel; [lia|].
  destruct (Hb i j Hi Hj) as (c & Hc & Hdir & Hedge).
  cbn [while_ done negb]. unfold traceback_step.
  unfold mbind at 1, M_bind at 1.
  erewrite bind_ok by (by apply read_b_ok).
  assert (Hinner : c ≠ "?"%char → 1 ≤ i ∧ 1 ≤ j).
  { intros Hne. destruct (decide (i = 0 ∨ j = 0)) as [H0|H0]; [|lia].
    by apply Hedge in H0. }
  assert (Hsym1 : ∀ x, slot string1 (i - 1) = Some x → x ≠ GAP).
  { intros x Hx ->. by apply Hg1, (slot_elem_of _ (i - 1)). }
  assert (Hsym2 : ∀ y, slot string2 (j - 1) = Some y → y ≠ GAP).
  { intros y Hy ->. by apply Hg2, (slot_elem_of _ (j - 1)). }
  apply elem_of_cons in Hdir as [->|Hdir].
  { destruct Hinner as [Hi1 Hj1]; [done|].
    destruct (slot_lt string1 (i - 1)) as [x Hx]; [lia|].
    rewrite bool_decide_eq_true_2 by done.
    erewrite bind_ok by (by apply str_at_ok). unfold mret, M_ret.
    destruct (IH (i - 1) j (ms1 ++ [x]) (ms2 ++ ["*"%char]))
      as (w & new1 & new2 & Hw & H1 & H2 & Hwi & Hwj & Hu1 & Hu2);
      [done|done|done|lia|lia|lia|].
    exists w, (x :: new1), (GAP :: new2).
    rewrite <- !app_assoc in H1, H2.
    split_and!; [done|done|done|lia|lia|lia|lia| |].
    - rewrite ungap_cons_symbol by auto. rewrite Hu1.
      rewrite (piece_snoc string1 (wi w) i x) by (done || lia).
      by rewrite rev_app_distr.
    - by rewrite ungap_cons_gap. }
  apply elem_of_cons in Hdir as [->|Hdir].
  { destruct Hinner as [Hi1 Hj1]; [done|].
    destruct (slot_lt string2 (j - 1)) as [y Hy]; [lia|].
    rewrite bool_decide_eq_false_2 by done.
    rewrite bool_decide_eq_true_2 by done.
    erewrite bind_ok by (by apply str_at_ok). unfold mret, M_ret.
    destruct (IH i (j - 1) (ms1 ++ ["*"%char]) (ms2 ++ [y]))
      as (w & new1 & new2 & Hw & H1 & H2 & Hwi & Hwj & Hu1 & Hu2);
      [done|done|done|lia|lia|lia|].
    exists w, (GAP :: new1), (y :: new2).
    rewrite <- !app_assoc in H1, H2.
    split_and!; [done|done|done|lia|lia|lia|lia| |].
    - by rewrite ungap_cons_gap.
    - rewrite ungap_cons_symbol by auto. rewrite Hu2.
      rewrite (piece_snoc string2 (wj w) j y) by (done || lia).
      by rewrite rev_app_distr. }
  apply elem_of_cons in Hdir as [->|Hdir].
  { destruct Hinner as [Hi1 Hj1]; [done|].
    destruct (slot_lt string1 (i - 1)) as [x Hx]; [lia|].
    destruct (slot_lt string2 (j - 1)) as [y Hy]; [lia|].
    rewrite !bool_decide_eq_false_2 by done.
    rewrite bool_decide_eq_true_2 by done.
    erewrite bind_ok by (by apply str_at_ok).
    erewrite bind_ok by (by apply str_at_ok). unfold mret, M_ret.
    destruct (IH (i - 1) (j - 1) (ms1 ++ [x]) (ms2 ++ [y]))
      as (w & new1 & new2 & Hw & H1 & H2 & Hwi & Hwj & Hu1 & Hu2);
      [done|done|done|lia|lia|lia|].
    exists w, (x :: new1), (y :: new2).
    rewrite <- !app_assoc in H1, H2.
    split_and!; [done|done|done|lia|lia|lia|lia| |].
    - rewrite ungap_cons_symbol by auto. rewrite Hu1.
      rewrite (piece_snoc string1 (wi w) i x) by (done || lia).
      by rewrite rev_app_distr.
    - rewrite ungap_cons_symbol by auto. rewrite Hu2.
      rewrite (piece_snoc string2 (wj w) j y) by (done || lia).
      by rewrite rev_app_distr. }
  apply list_elem_of_singleton in Hdir as ->.
  rewrite !bool_decide_eq_false_2 by done.
  rewrite bool_decide_eq_true_2 by done. unfold mret, M_ret.
  destruct fuel as [|fuel]; [lia|]. simpl. unfold mret, M_ret.
  exists (Walk i j ms1 ms2 true), [], []. simpl.
  rewrite !app_nil_r, !piece_empty. split_and!; (done || lia).
Qed.

(** X22: on matrices that hold scores in row [n] of [d] and a well-formed
    trace in [b], for sequences without the gap marker, lines 267-318
    return the best score of row [n], which is not negative, and two
    strings of the same length; without their gap markers these are a
    piece of [string1] that ends at its end and a piece of [string2] that
    ends at the column of the best score. *)
Theorem read_off_alignment (fuel : nat) (string1 string2 : list ascii)
    (st : mem) (vals : list Z) :
  let n := Z.of_nat (length string1) in
  let m := Z.of_nat (length string2) in
  slot (d st) n = Some (Some (Some <$> vals)) →
  Z.of_nat (length vals) = m + 1 →
  trace_matrix (b st) n m →
  GAP ∉ string1 → GAP ∉ string2 →
  (length string1 + length string2 + 2 ≤ fuel)%nat →
  ∃ best_j i' j' a1 a2,
    read_off fuel string1 string2 st = Ok (row_best vals, a1, a2) st ∧
    0 ≤ row_best vals ∧ best_at vals (row_best vals) best_j ∧
    0 ≤ i' ≤ n ∧ 0 ≤ j' ≤ best_j ∧ best_j ≤ m ∧
    length a1 = length a2 ∧
    ungap a1 = piece string1 i' n ∧
    ungap a2 = piece string2 j' best_j.
Proof.
  intros n m Hrow Hlen Hb Hg1 Hg2 Hfuel. unfold read_off. fold n m.
  destruct (find_best_ok fuel n m st vals) as (bj & Hfind & Hat);
    [done|done|lia|].
  assert (Hbj : 0 ≤ bj ≤ m).
  { destruct Hat as [[_ ->]|(_ & ? & Hl)]; [lia|].
    apply lookup_lt_Some in Hl. lia. }
  destruct (traceback_lockstep fuel string1 string2 st n bj)
    as (ms1 & ms2 & Htb & Heq & Hle & _); [done|lia|lia|lia|].
  destruct (traceback_loop_pieces string1 string2 st fuel n bj [] [])
    as (w & new1 & new2 & Hw & H1 & H2 & Hwi & Hwj & Hu1 & Hu2);
    [done|done|done|lia|lia|lia|].
  unfold traceback in Htb. erewrite bind_ok in Htb by exact Hw.
  unfold mret, M_ret in Htb. simplify_eq. simpl in H1, H2.
  exists bj, (wi w), (wj w), (rev (matchString1 w)), (rev (matchString2 w)).
  erewrite bind_ok by exact Hfind. cbn beta iota.
  unfold traceback. erewrite bind_ok by (erewrite bind_ok by exact Hw; done).
  cbn beta iota.
  erewrite bind_ok by (apply reversed_ok; lia).
  erewrite bind_ok by (apply reversed_ok; lia).
  split_and!; [done|apply row_best_spec|done|lia|lia|lia|lia|lia| | |].
  - by rewrite !length_rev.
  - by rewrite ungap_rev, H1, Hu1, rev_involutive.
  - by rewrite ungap_rev, H2, Hu2, rev_involutive.
Qed.

Example trace_matrix_A_AB : trace_matrix (b filled_A_AB) 1 2.
Proof.
  intros i j Hi Hj.
  assert (i = 0 ∨ i = 1) as [-> | ->] by lia;
    (assert (j = 0 ∨ j = 1 ∨ j = 2) as [-> | [-> | ->]] by lia);
    eexists; (split; [reflexivity|]);
    (split; [apply (bool_decide_unpack _); vm_compute; exact I|]);
    first [done | intros [?|?]; done].
Qed.

Lemma read_off_alignment_witness :
  ∃ best_j i' j' a1 a2,
    read_off 5 (str "A") (str "AB") filled_A_AB
      = Ok (row_best [0; 1; 0], a1, a2) filled_A_AB ∧
    0 ≤ row_best [0; 1; 0] ∧ best_at [0; 1; 0] (row_best [0; 1; 0]) best_j ∧
    0 ≤ i' ≤ 1 ∧ 0 ≤ j' ≤ best_j ∧ best_j ≤ 2 ∧
    length a1 = length a2 ∧
    ungap a1 = piece (str "A") i' 1 ∧
    ungap a2 = piece (str "AB") j' best_j.
Proof.
  apply (read_off_alignment 5 (str "A") (str "AB") filled_A_AB [0; 1; 0]).
  - reflexivity.
  - reflexivity.
  - apply trace_matrix_A_AB.
  - apply (bool_decide_unpack _). vm_compute. exact I.
  - apply (bool_decide_unpack _). vm_compute. exact I.
  - simpl. lia.
Defined.
